(** * shtab: generation of a bash completion script from an argparse tree

    A shallow embedding of [shtab.py]: the recursive traversal
    [print_bash_commands], the script assembly [print_bash], the [Choice]
    markers and the entry point [complete], followed by the properties of
    the traversal that the specification states.

    Conventions.
    - A Python [str] is a [string]; the order of [sorted] on strings is the
      lexicographic order of [String.compare] (code points, as in Python).
    - An [io.StringIO] is the list of the chunks printed to it, oldest
      first; [getvalue] concatenates them, each followed by a newline.
    - A computation that prints and may raise is a function from the sink
      to the sink after the run and either an exception or a value; the
      sink keeps what was printed before an exception.
    - Calls to [logger.debug] write to the logging system only and are
      left out. *)

From Stdlib Require Import List String Ascii Bool Arith ZArith Lia.
From Stdlib Require Import Permutation Sorted.
Import ListNotations.
Open Scope string_scope.
Open Scope list_scope.

Infix "+++" := String.append (right associativity, at level 60).

(** ** Python built-ins used by the module *)

Module Py.

(** The characters that cannot be typed in a literal here. *)
Definition dq : string := String (ascii_of_nat 34) EmptyString.
Definition nl : string := String (ascii_of_nat 10) EmptyString.

(** [s.replace(a, b)] for one-character [a] and [b]. *)
Fixpoint replace (a b : ascii) (s : string) : string :=
  match s with
  | EmptyString => EmptyString
  | String c s' => String (if Ascii.eqb c a then b else c) (replace a b s')
  end.

(** [sep.join(l)]. *)
Fixpoint join (sep : string) (l : list string) : string :=
  match l with
  | [] => EmptyString
  | [x] => x
  | x :: l' => x +++ sep +++ join sep l'
  end.

(** [s.startswith(p)]. *)
Fixpoint startswith (p s : string) : bool :=
  match p, s with
  | EmptyString, _ => true
  | String a p', String b s' => Ascii.eqb a b && startswith p' s'
  | String _ _, EmptyString => false
  end.

(** [needle in hay] on strings: substring test, case-sensitive. *)
Fixpoint contains (needle hay : string) : bool :=
  startswith needle hay
  || match hay with
     | EmptyString => false
     | String _ hay' => contains needle hay'
     end.

(** Truth value of a string and of a list. *)
Definition truthy_str (s : string) : bool :=
  match s with EmptyString => false | _ => true end.

Definition truthy_list {A} (l : list A) : bool :=
  match l with [] => false | _ => true end.

(** [sorted(l)]: a stable sort that only uses [<], as Python's does. *)
Section Sorted.
Context {A : Type} (lt : A -> A -> bool).

Fixpoint insert (x : A) (l : list A) : list A :=
  match l with
  | [] => [x]
  | y :: l' => if lt y x then y :: insert x l' else x :: y :: l'
  end.

Fixpoint sorted (l : list A) : list A :=
  match l with
  | [] => []
  | x :: l' => insert x (sorted l')
  end.
End Sorted.

(** [x in l] for strings in a list or set of strings. *)
Definition str_in (x : string) (l : list string) : bool :=
  existsb (String.eqb x) l.

(** [d[k]] and iteration on a dict kept in insertion order. *)
Fixpoint dict_get {V} (d : list (string * V)) (k : string) : option V :=
  match d with
  | [] => None
  | (k', v) :: d' => if String.eqb k' k then Some v else dict_get d' k
  end.

Definition keys {V} (d : list (string * V)) : list string := map fst d.

End Py.

(** ** Exceptions, sinks and printing computations *)

Inductive exn : Type := TypeError | KeyError | NotImplementedError.

Definition StringIO (W : Type) : Type := list W.

Definition M (W A : Type) : Type := StringIO W -> StringIO W * (exn + A).

Definition ret {W A} (a : A) : M W A := fun fd => (fd, inr a).

Definition bind {W A B} (m : M W A) (k : A -> M W B) : M W B :=
  fun fd =>
    match m fd with
    | (fd', inl e) => (fd', inl e)
    | (fd', inr a) => k a fd'
    end.

Definition raise {W A} (e : exn) : M W A := fun fd => (fd, inl e).

(** [print(w, file=fd)]. *)
Definition print {W} (w : W) : M W unit := fun fd => (fd ++ [w], inr tt).

Declare Scope py_scope.
Delimit Scope py_scope with py.
Notation "x <- m ;; k" := (bind m (fun x => k))
  (at level 61, m at next level, right associativity) : py_scope.
Notation "m ;; k" := (bind m (fun _ => k))
  (at level 61, right associativity) : py_scope.
Open Scope py_scope.

(** [for x in l: s = body(x, s)], the loop variables threaded as [s]. *)
Fixpoint for_each {W A S} (l : list A) (body : A -> S -> M W S) (s : S)
  : M W S :=
  match l with
  | [] => ret s
  | x :: l' => s' <- body x s ;; for_each l' body s'
  end.

(** What a computation prints into an empty sink, and how it ends. *)
Definition written {W A} (m : M W A) : list W := fst (m []).
Definition outcome {W A} (m : M W A) : exn + A := snd (m []).

(** ** Module constants *)

Definition GLOBAL_OPTIONS : list string :=
  ["-h"; "--help"; "-q"; "--quiet"; "-v"; "--verbose"].

Definition ROOT_PREFIX : string := "_dvc".

Definition UNCOMPLETABLE_POSITIONALS : list string :=
  ["rev"; "url"; "args"; "name"; "option"; "value"; "command"].

(** ** The [Choice] markers *)

Record Choice : Type := mkChoice { choice_type : string; required : bool }.

(** [Choice.__cmp__(self, other)]; only the truth value of [other] is
    looked at. *)
Definition Choice_cmp (self : Choice) (other_truthy : bool) : Z :=
  if required self then (if other_truthy then 0 else -1)%Z else 0%Z.

Definition Choice_eq (self : Choice) (other_truthy : bool) : bool :=
  Z.eqb (Choice_cmp self other_truthy) 0.

Definition Choice_lt (self : Choice) (other_truthy : bool) : bool :=
  Z.ltb (Choice_cmp self other_truthy) 0.

Module Optional.
Definition FILE : list Choice := [mkChoice "file" false].
Definition DIR : list Choice := [mkChoice "directory" false].
Definition DIRECTORY : list Choice := DIR.
End Optional.

Module Required.
Definition FILE : list Choice := [mkChoice "file" true].
Definition DIR : list Choice := [mkChoice "directory" true].
Definition DIRECTORY : list Choice := DIR.
End Required.

(** ** The argparse tree *)

(** The [choices] of a positional action: absent, the name-to-parser dict
    of a subparsers action (in insertion order), or a list of [Choice]
    markers. *)
Inductive Choices (P : Type) : Type :=
| NoChoices
| Subparsers (d : list (string * P))
| Markers (l : list Choice).
Arguments NoChoices {P}.
Arguments Subparsers {P} d.
Arguments Markers {P} l.

Record Action (P : Type) : Type :=
  mkAction { dest : string; choices : Choices P }.
Arguments mkAction {P} dest choices.
Arguments dest {P} a.
Arguments choices {P} a.

Record OptionalAction : Type := mkOptional { option_strings : list string }.

#[warnings="-register-all"]
Inductive ArgumentParser : Type :=
| Parser (positional_actions : list (Action ArgumentParser))
         (optional_actions : list OptionalAction).

Definition _get_positional_actions (p : ArgumentParser) :=
  match p with Parser pos _ => pos end.

Definition _get_optional_actions (p : ArgumentParser) :=
  match p with Parser _ opt => opt end.

Definition Choices_map {P Q} (f : P -> Q) (c : Choices P) : Choices Q :=
  match c with
  | NoChoices => NoChoices
  | Subparsers d => Subparsers (map (fun e => (fst e, f (snd e))) d)
  | Markers l => Markers l
  end.

Definition Action_map {P Q} (f : P -> Q) (a : Action P) : Action Q :=
  mkAction (dest a) (Choices_map f (choices a)).

(** Truth value of [sub.choices]. *)
Definition choices_truthy {P} (c : Choices P) : bool :=
  match c with
  | NoChoices => false
  | Subparsers d => Py.truthy_list d
  | Markers l => Py.truthy_list l
  end.

(** ** Lines of the generated definitions *)

Inductive compgen : Type := compgen_files | compgen_DVCFiles.

(** A chunk printed by the traversal: [prefix='opts'] or
    [prefix_COMPGEN=function]. The options are kept as the list that the
    code joins with spaces. *)
Inductive line : Type :=
| OptionsLine (prefix : string) (opts : list string)
| CompgenLine (prefix : string) (fn : compgen).

Definition compgen_name (fn : compgen) : string :=
  match fn with
  | compgen_files => "_dvc_compgen_files"
  | compgen_DVCFiles => "_dvc_compgen_DVCFiles"
  end.

Definition render (l : line) : string :=
  match l with
  | OptionsLine prefix opts => prefix +++ "='" +++ Py.join " " opts +++ "'"
  | CompgenLine prefix fn => prefix +++ "_COMPGEN=" +++ compgen_name fn
  end.

(** [bash.getvalue()]. *)
Definition getvalue {W} (show : W -> string) (fd : StringIO W) : string :=
  String.concat EmptyString (map (fun w => show w +++ Py.nl) fd).

Definition line_prefix (l : line) : string :=
  match l with OptionsLine p _ => p | CompgenLine p _ => p end.

(** ** The traversal *)

(** An element met while iterating [sub.choices]: a key of the dict or a
    [Choice] marker of the list. *)
Inductive opt_item : Type :=
| OStr (s : string)
| OChoice (c : Choice).

(** [for opt in sub.choices]. *)
Definition choices_iter {P} (c : Choices P) : list opt_item :=
  match c with
  | NoChoices => []
  | Subparsers d => map OStr (Py.keys d)
  | Markers l => map OChoice l
  end.

(** [g == i] for [g] a string of [GLOBAL_OPTIONS]: [str.__eq__] answers
    for a string, and hands over to [Choice.__eq__(i, g)] for a marker. *)
Definition item_eq_str (i : opt_item) (g : string) : bool :=
  match i with
  | OStr s => String.eqb g s
  | OChoice c => Choice_eq c (Py.truthy_str g)
  end.

(** [i in GLOBAL_OPTIONS]. *)
Definition in_GLOBAL_OPTIONS (i : opt_item) : bool :=
  existsb (item_eq_str i) GLOBAL_OPTIONS.

(** The items that [" ".join] accepts: strings only. *)
Fixpoint strs (l : list opt_item) : option (list string) :=
  match l with
  | [] => Some []
  | OStr s :: l' => option_map (cons s) (strs l')
  | OChoice _ :: _ => None
  end.

(** The list [opts] before it is joined. *)
Definition node_opts {P} (positionals : list (Action P))
    (optionals : list OptionalAction) : list opt_item :=
  let opts :=
    flat_map (fun sub =>
      if choices_truthy (choices sub) then choices_iter (choices sub) else [])
      positionals in
  let opts := opts ++ map OStr (List.concat (map option_strings optionals)) in
  filter (fun i => negb (in_GLOBAL_OPTIONS i)) opts.

(** [any(i in sub.dest for i in UNCOMPLETABLE_POSITIONALS)]. *)
Definition uncompletable (d : string) : bool :=
  existsb (fun i => Py.contains i d) UNCOMPLETABLE_POSITIONALS.

(** [s.intersection(l)] for a set [s] of strings. *)
Definition intersection (s l : list string) : list string :=
  filter (fun x => Py.str_in x l) s.

(** The prefix handed to the child reached by [cmd]. *)
Definition child_prefix (prefix cmd : string) : string :=
  prefix +++ "_" +++ Py.replace "-" "_" cmd.

(** A traversal of a subtree, waiting for its prefix; it returns the
    list [commands]. *)
Definition walker : Type := string -> M line (list string).

(** One round of the inner loop on a dict: [commands.append(cmd)], then
    the recursive call on [sub.choices[cmd]]. *)
Definition visit_command (d : list (string * walker)) (prefix : string)
    (cmd : string) (commands : list string) : M line (list string) :=
  let commands := commands ++ [cmd] in
  match Py.dict_get d cmd with
  | None => raise KeyError
  | Some child => child (child_prefix prefix cmd) ;; ret commands
  end.

(** The inner loop [for cmd in sorted(sub.choices)], entered when
    [sub.choices] is true. On a list of markers the first round appends
    the marker and then indexes the list by it, which raises. *)
Definition visit_choices (sub : Action walker) (prefix : string)
    (commands : list string) : M line (list string) :=
  match choices sub with
  | Subparsers d =>
      for_each (Py.sorted String.ltb (Py.keys d)) (visit_command d prefix)
        commands
  | Markers l =>
      for_each (Py.sorted (fun a _ => Choice_lt a true) l)
        (fun _ _ => raise TypeError)
        commands
  | NoChoices => ret commands
  end.

(** One round of [for sub in positionals], the lists [commands] and
    [dest] threaded as a pair. *)
Definition visit_positional (prefix : string) (sub : Action walker)
    (st : list string * list string) : M line (list string * list string) :=
  let '(commands, dests) := st in
  if choices_truthy (choices sub) then
    commands <- visit_choices sub prefix commands ;;
    ret (commands, dests)
  else if negb (uncompletable (dest sub)) then
    ret (commands, dests ++ [dest sub])
  else ret (commands, dests).

(** The closing [if dest:] block. *)
Definition print_compgen (prefix : string) (dests : list string)
  : M line unit :=
  if Py.truthy_list dests then
    if negb (Py.truthy_list (intersection ["targets"; "target"] dests))
    then print (CompgenLine prefix compgen_files)
    else print (CompgenLine prefix compgen_DVCFiles)
  else ret tt.

(** The opening block, skipped at the root. *)
Definition print_options (prefix : string) (positionals : list (Action walker))
    (optionals : list OptionalAction) : M line unit :=
  if String.eqb prefix ROOT_PREFIX then ret tt
  else
    match strs (node_opts positionals optionals) with
    | None => raise TypeError
    | Some opts => print (OptionsLine prefix opts)
    end.

(** The body of [print_bash_commands], the recursive calls on the values
    of the choices being the walkers stored in [positionals]. *)
Definition print_bash_commands_step (positionals : list (Action walker))
    (optionals : list OptionalAction) : walker :=
  fun prefix =>
    print_options prefix positionals optionals ;;
    st <- for_each positionals (visit_positional prefix) ([], []) ;;
    print_compgen prefix (snd st) ;;
    ret (fst st).

Fixpoint print_bash_commands (parser : ArgumentParser) : walker :=
  match parser with
  | Parser positionals optionals =>
      print_bash_commands_step
        (map (Action_map print_bash_commands) positionals) optionals
  end.

(** ** The script *)

Definition SCRIPT_HEAD : list string :=
  [ "#!/usr/bin/env bash";
    "# AUTOMATCALLY GENERATED from `dvc completion`";
    "# References:";
    "#   - https://www.gnu.org/software/bash/manual/html_node/Programmable-Completion.html";
    "#   - https://opensource.com/article/18/3/creating-bash-completion-script";
    "#   - https://stackoverflow.com/questions/12933362";
    EmptyString;
    "_dvc_commands='" ].

Definition SCRIPT_OPTIONS : list string :=
  [ "'";
    EmptyString;
    "_dvc_options='-h --help -V --version'";
    "_dvc_global_options='" ].

Definition SCRIPT_SEP : list string :=
  [ "'";
    EmptyString;
    EmptyString ].

Definition SCRIPT_TAIL : list string :=
  [ EmptyString;
    "# $1=COMP_WORDS[1]";
    "_dvc_compgen_DVCFiles() {";
    "  compgen -f -X '!*?.dvc' -- $1";
    "  compgen -d -S '/' -- $1  # recurse into subdirs";
    "  # Note that the recurse into dirs is only for looking for DVC-files.";
    "  # Since dirs themselves are not required, we need `-o nospace` at the bottom";
    "  # unfortunately :(";
    "}";
    EmptyString;
    "# $1=COMP_WORDS[1]";
    "_dvc_compgen_files() {";
    "  compgen -f -- $1";
    "  compgen -d -S '/' -- $1  # recurse into subdirs";
    "}";
    EmptyString;
    "# $1=COMP_WORDS[1]";
    "_dvc_replace_hyphen() {";
    "  echo $1 | sed 's/-/_/g'";
    "}";
    EmptyString;
    "# $1=COMP_WORDS[1]";
    "_dvc_compgen_command() {";
    "  local flags_list=" +++ Py.dq +++ "_dvc_$(_dvc_replace_hyphen $1)" +++ Py.dq;
    "  local args_gen=" +++ Py.dq +++ "${flags_list}_COMPGEN" +++ Py.dq;
    "  COMPREPLY=( $(compgen -W " +++ Py.dq +++ "$_dvc_global_options ${!flags_list}" +++ Py.dq +++ " -- " +++ Py.dq +++ "$word" +++ Py.dq +++ "; [ -n " +++ Py.dq +++ "${!args_gen}" +++ Py.dq +++ " ] && ${!args_gen} " +++ Py.dq +++ "$word" +++ Py.dq +++ ") )";
    "}";
    EmptyString;
    "# $1=COMP_WORDS[1]";
    "# $2=COMP_WORDS[2]";
    "_dvc_compgen_subcommand() {";
    "  local flags_list=" +++ Py.dq +++ "_dvc_$(_dvc_replace_hyphen $1)_$(_dvc_replace_hyphen $2)" +++ Py.dq;
    "  local args_gen=" +++ Py.dq +++ "${flags_list}_COMPGEN" +++ Py.dq;
    "  [ -n " +++ Py.dq +++ "${!args_gen}" +++ Py.dq +++ " ] && local opts_more=" +++ Py.dq +++ "$(${!args_gen} " +++ Py.dq +++ "$word" +++ Py.dq +++ ")" +++ Py.dq;
    "  local opts=" +++ Py.dq +++ "${!flags_list}" +++ Py.dq;
    "  if [ -z " +++ Py.dq +++ "$opts$opts_more" +++ Py.dq +++ " ]; then";
    "    _dvc_compgen_command $1";
    "  else";
    "    COMPREPLY=( $(compgen -W " +++ Py.dq +++ "$_dvc_global_options $opts" +++ Py.dq +++ " -- " +++ Py.dq +++ "$word" +++ Py.dq +++ "; [ -n " +++ Py.dq +++ "$opts_more" +++ Py.dq +++ " ] && echo " +++ Py.dq +++ "$opts_more" +++ Py.dq +++ ") )";
    "  fi";
    "}";
    EmptyString;
    "# Notes:";
    "# `COMPREPLY` contains what will be rendered after completion is triggered";
    "# `word` refers to the current typed word";
    "# `${!var}` is to evaluate the content of `var`";
    "# and expand its content as a variable";
    "#       hello=" +++ Py.dq +++ "world" +++ Py.dq;
    "#       x=" +++ Py.dq +++ "hello" +++ Py.dq;
    "#       ${!x} ->  ${hello} ->  " +++ Py.dq +++ "world" +++ Py.dq;
    "_dvc() {";
    "  local word=" +++ Py.dq +++ "${COMP_WORDS[COMP_CWORD]}" +++ Py.dq;
    EmptyString;
    "  COMPREPLY=()";
    EmptyString;
    "  if [ " +++ Py.dq +++ "${COMP_CWORD}" +++ Py.dq +++ " -eq 1 ]; then";
    "    case " +++ Py.dq +++ "$word" +++ Py.dq +++ " in";
    "      -*) COMPREPLY=($(compgen -W " +++ Py.dq +++ "$_dvc_options" +++ Py.dq +++ " -- " +++ Py.dq +++ "$word" +++ Py.dq +++ ")) ;;";
    "      *" +++ ") COMPREPLY=($(compgen -W " +++ Py.dq +++ "$_dvc_commands" +++ Py.dq +++ " -- " +++ Py.dq +++ "$word" +++ Py.dq +++ ")) ;;";
    "    esac";
    "  elif [ " +++ Py.dq +++ "${COMP_CWORD}" +++ Py.dq +++ " -eq 2 ]; then";
    "    _dvc_compgen_command ${COMP_WORDS[1]}";
    "  elif [ " +++ Py.dq +++ "${COMP_CWORD}" +++ Py.dq +++ " -ge 3 ]; then";
    "    _dvc_compgen_subcommand ${COMP_WORDS[1]} ${COMP_WORDS[2]}";
    "  fi";
    EmptyString;
    "  return 0";
    "}";
    EmptyString;
    "complete -o nospace -F _dvc dvc" ].

(** The text printed by [print_bash], without the newline that [print]
    adds. *)
Definition script (commands : list string) (bash : string) : string :=
  Py.join Py.nl SCRIPT_HEAD +++ Py.join " " commands
  +++ Py.join Py.nl SCRIPT_OPTIONS +++ Py.join " " GLOBAL_OPTIONS
  +++ Py.join Py.nl SCRIPT_SEP +++ bash +++ Py.join Py.nl SCRIPT_TAIL.

Definition print_bash (parser : ArgumentParser) : M string unit :=
  fun fd =>
    let bash : StringIO line := [] in
    match print_bash_commands parser ROOT_PREFIX bash with
    | (_, inl e) => (fd, inl e)
    | (bash, inr commands) =>
        print (script commands (getvalue render bash)) fd
    end.

(** [complete(parser, shell)]: the sink [output] as the call leaves it,
    and the exception raised or the string returned. *)
Definition complete (parser : ArgumentParser) (shell : string)
  : StringIO string * (exn + string) :=
  let output : StringIO string := [] in
  if String.eqb shell "bash" then
    match print_bash parser output with
    | (output, inl e) => (output, inl e)
    | (output, inr _) => (output, inr (getvalue (fun s => s) output))
    end
  else (output, inl NotImplementedError).

(** ** Predicates on printing computations *)

(** A computation only appends to its sink, and what it appends and how
    it ends do not depend on what the sink held before. *)
Definition appends {W A} (m : M W A) : Prop :=
  forall fd, m fd = (fd ++ written m, outcome m).

(** Every chunk that a computation prints satisfies [Q]. *)
Definition emits {W A} (Q : W -> Prop) (m : M W A) : Prop :=
  forall fd, exists w, fst (m fd) = fd ++ w /\ Forall Q w.

(** A computation raises nothing but exceptions in [E]. *)
Definition raises_only {W A} (E : exn -> Prop) (m : M W A) : Prop :=
  forall fd e, snd (m fd) = inl e -> E e.

(** ** The tree as the traversal sees it *)

(** [Q] holds of every parser stored in the choices of [a]. *)
Definition children_all {P} (Q : P -> Prop) (a : Action P) : Prop :=
  match choices a with
  | Subparsers d => Forall (fun e => Q (snd e)) d
  | _ => True
  end.

(** The children that the inner loop reaches from one positional, each
    with the choice that leads to it, in the order of the loop. *)
Definition dispatched {P} (sub : Action P) : list (string * P) :=
  match choices sub with
  | Subparsers d =>
      flat_map (fun cmd =>
                  match Py.dict_get d cmd with
                  | Some child => [(cmd, child)]
                  | None => []
                  end)
               (Py.sorted String.ltb (Py.keys d))
  | _ => []
  end.

Definition dispatch {P} (positionals : list (Action P)) : list (string * P) :=
  flat_map dispatched positionals.

(** A plain positional: one whose [choices] is not true. *)
Definition plain {P} (sub : Action P) : bool :=
  negb (choices_truthy (choices sub)).

Definition plain_names {P} (positionals : list (Action P)) : list string :=
  map dest (filter plain positionals).

(** The list [dest] when the loop ends. *)
Definition completable_dests {P} (positionals : list (Action P))
  : list string :=
  filter (fun d => negb (uncompletable d)) (plain_names positionals).

(** The choice strings of the choice-bearing positionals, in declared
    order. *)
Definition choice_strings {P} (positionals : list (Action P)) : list string :=
  flat_map (fun sub =>
              match choices sub with
              | Subparsers d => Py.keys d
              | _ => []
              end) positionals.

(** The options of a node's line: choice strings, then option strings,
    without the global options. *)
Definition visibleOptions {P} (positionals : list (Action P))
    (optionals : list OptionalAction) : list string :=
  filter (fun s => negb (Py.str_in s GLOBAL_OPTIONS))
         (choice_strings positionals
          ++ List.concat (map option_strings optionals)).

(** No positional of the tree has a non-empty list of markers as its
    choices. *)
Fixpoint marker_free (p : ArgumentParser) : bool :=
  match p with
  | Parser positionals _ =>
      forallb (fun a =>
                 match choices a with
                 | NoChoices => true
                 | Subparsers d => forallb (fun e => marker_free (snd e)) d
                 | Markers l => negb (Py.truthy_list l)
                 end) positionals
  end.

(** The options of a line, and where an identifier sits below a prefix. *)
Definition line_opts (l : line) : list string :=
  match l with OptionsLine _ opts => opts | CompgenLine _ _ => [] end.

Definition below (prefix x : string) : Prop :=
  exists rest, x = prefix +++ "_" +++ rest.

Definition under (prefix x : string) : Prop := x = prefix \/ below prefix x.

Definition line_ok (prefix : string) (l : line) : Prop :=
  under prefix (line_prefix l)
  /\ forall o, In o (line_opts l) -> ~ In o GLOBAL_OPTIONS.

(** Walkers that behave at every prefix. *)
Definition walker_appends (w : walker) : Prop :=
  forall prefix, appends (w prefix).

Definition walker_emits_ok (w : walker) : Prop :=
  forall prefix, emits (line_ok prefix) (w prefix).

Definition walker_raises_TypeError (w : walker) : Prop :=
  forall prefix, raises_only (eq TypeError) (w prefix).

Definition walker_returns (w : walker) : Prop :=
  forall prefix, exists commands, outcome (w prefix) = inr commands.

(** ** The completion strategy of a node, as the specification names it *)

Inductive strategy : Type := NONE | GENERIC_PATH | PROJECT_FILE.

(** The classification of a set of plain-positional names: nothing when
    there is no name or every name matches the denylist, the
    project-file completer when a marker name is present, the generic
    path completer otherwise. *)
Definition classify (names : list string) : strategy :=
  if forallb uncompletable names then NONE
  else if existsb (fun n => Py.str_in n ["target"; "targets"]) names
       then PROJECT_FILE
       else GENERIC_PATH.

Definition strategy_lines (prefix : string) (s : strategy) : list line :=
  match s with
  | NONE => []
  | GENERIC_PATH => [CompgenLine prefix compgen_files]
  | PROJECT_FILE => [CompgenLine prefix compgen_DVCFiles]
  end.

(** The options line of a node: none at the root. *)
Definition options_lines (prefix : string) (p : ArgumentParser) : list line :=
  if String.eqb prefix ROOT_PREFIX then []
  else [OptionsLine prefix
          (visibleOptions (_get_positional_actions p)
                          (_get_optional_actions p))].

(** The strings among the items met while iterating choices. *)
Definition item_strings (l : list opt_item) : list string :=
  flat_map (fun i => match i with OStr s => [s] | OChoice _ => [] end) l.

(** A positional whose choices are not a non-empty list of markers. *)
Definition no_markers {P} (sub : Action P) : bool :=
  match choices sub with
  | Markers l => negb (Py.truthy_list l)
  | _ => true
  end.

(** The lines of the children reached from [positionals], each child
    run by [run] at its own prefix. *)
Definition children_lines {P} (run : P -> walker) (prefix : string)
    (positionals : list (Action P)) : list line :=
  flat_map (fun e => written (run (snd e) (child_prefix prefix (fst e))))
           (dispatch positionals).

Definition well_behaved (w : walker) : Prop :=
  walker_appends w /\ walker_returns w.

(** The run of the traversal on [p] is the one of a traversal without
    exception: the options line, the lines of the children, the marker
    of the strategy, and the sorted choices returned. *)
Definition runs_to_end (p : ArgumentParser) : Prop :=
  forall prefix fd,
    print_bash_commands p prefix fd =
    (fd ++ options_lines prefix p
        ++ children_lines print_bash_commands prefix
             (_get_positional_actions p)
        ++ strategy_lines prefix
             (classify (plain_names (_get_positional_actions p))),
     inr (map fst (dispatch (_get_positional_actions p)))).

(** ** The nodes of a traversal from the root *)

(** [visited root depth p prefix]: the traversal of [root] started at
    [ROOT_PREFIX] calls itself on [p] with [prefix], [depth] calls below
    the first one. *)
Inductive visited (root : ArgumentParser)
  : nat -> ArgumentParser -> string -> Prop :=
| visited_root : visited root 0 root ROOT_PREFIX
| visited_child depth p prefix cmd child :
    visited root depth p prefix ->
    In (cmd, child) (dispatch (_get_positional_actions p)) ->
    visited root (S depth) child (child_prefix prefix cmd).

(** The order of the choices in the inner loop. *)
Definition str_le (a b : string) : Prop := String.leb a b = true.

(** Every line printed from the children has its prefix below the
    node's. *)
Definition line_below (prefix : string) (l : line) : Prop :=
  below prefix (line_prefix l).

(** ** Trees of the scenarios *)

Definition leaf : ArgumentParser := Parser [] [].

(** A root with one subcommand [add] with options [-f], [--force] and a
    plain positional [target]. *)
Definition add_parser : ArgumentParser :=
  Parser [mkAction "target" NoChoices] [mkOptional ["-f"; "--force"]].

Definition scenario_A : ArgumentParser :=
  Parser [mkAction "cmd" (Subparsers [("add", add_parser)])] [].

(** A root with a subcommand [remote] that dispatches to [add] and
    [remove]. *)
Definition remote_parser : ArgumentParser :=
  Parser [mkAction "cmd" (Subparsers [("remove", leaf); ("add", leaf)])] [].

Definition scenario_B : ArgumentParser :=
  Parser [mkAction "cmd" (Subparsers [("remote", remote_parser)])] [].

(** A node whose only plain positional is [url]. *)
Definition scenario_C : ArgumentParser :=
  Parser [mkAction "url" NoChoices] [mkOptional ["-o"; "--out"]].

(** A positional declared with [choices=Optional.FILE], at the root and
    below a subcommand. *)
Definition file_parser : ArgumentParser :=
  Parser [mkAction "path" (Markers Optional.FILE)] [mkOptional ["--all"]].

Definition get_file_parser : ArgumentParser :=
  Parser [mkAction "cmd" (Subparsers [("get", file_parser)])] [].

(** A positional declared with [choices=Required.DIR] after a plain
    one. *)
Definition dir_action : Action ArgumentParser :=
  mkAction "dir" (Markers Required.DIR).

Definition init_parser : ArgumentParser :=
  Parser [mkAction "name" NoChoices; dir_action] [].

(** ** Identifiers *)

(** The identifiers that the traversal gives to the nodes: the prefixes
    of the options lines, one for each node below the root. *)
Definition identifiers (out : list line) : list string :=
  flat_map (fun l =>
              match l with
              | OptionsLine prefix _ => [prefix]
              | CompgenLine _ _ => []
              end) out.

Fixpoint nodupb (l : list string) : bool :=
  match l with
  | [] => true
  | x :: l' => negb (Py.str_in x l') && nodupb l'
  end.

(** The names of the subcommands of a node are pairwise distinct, at
    every node. *)
Fixpoint unique_siblings (p : ArgumentParser) : bool :=
  match p with
  | Parser positionals _ =>
      nodupb (choice_strings positionals)
      && forallb (fun a =>
                    match choices a with
                    | Subparsers d =>
                        forallb (fun e => unique_siblings (snd e)) d
                    | _ => true
                    end) positionals
  end.

Fixpoint has_char (c : ascii) (s : string) : bool :=
  match s with
  | EmptyString => false
  | String x s' => Ascii.eqb x c || has_char c s'
  end.

(** A name without hyphen and without underscore. *)
Definition plain_name (s : string) : bool :=
  negb (has_char "-" s) && negb (has_char "_" s).

(** No subcommand of the tree has a hyphen or an underscore in its
    name. *)
Fixpoint plain_subcommands (p : ArgumentParser) : bool :=
  match p with
  | Parser positionals _ =>
      forallb (fun a =>
                 match choices a with
                 | Subparsers d =>
                     forallb (fun e =>
                                plain_name (fst e)
                                && plain_subcommands (snd e)) d
                 | _ => true
                 end) positionals
  end.

(** Two subcommands [a-b] and [a_b] of the root. *)
Definition hyphen_collision : ArgumentParser :=
  Parser [mkAction "cmd" (Subparsers [("a-b", leaf); ("a_b", leaf)])] [].

(** A subcommand [a] with the subcommand [b], beside a subcommand
    [a_b]. *)
Definition nested_collision : ArgumentParser :=
  Parser [mkAction "cmd"
            (Subparsers
               [("a", Parser [mkAction "cmd" (Subparsers [("b", leaf)])] []);
                ("a_b", leaf)])] [].

(** What follows a name in an identifier: nothing, or an underscore and
    the rest of the path. *)
Definition path_tail (r : string) : Prop :=
  r = EmptyString \/ exists r', r = "_" +++ r'.

(** The hypotheses on a tree under which identifiers are unique. *)
Definition unambiguous (p : ArgumentParser) : Prop :=
  unique_siblings p = true /\ plain_subcommands p = true.

(** ** Trees that differ in the insertion order of their dicts *)

Definition entry_lt {V} (e1 e2 : string * V) : bool :=
  String.ltb (fst e1) (fst e2).

(** The tree with the entries of every dict put in the order of their
    names. *)
Fixpoint canonical (p : ArgumentParser) : ArgumentParser :=
  match p with
  | Parser positionals optionals =>
      Parser
        (map (fun a =>
                mkAction (dest a)
                  match choices a with
                  | NoChoices => NoChoices
                  | Subparsers d =>
                      Subparsers
                        (Py.sorted entry_lt
                           (map (fun e => (fst e, canonical (snd e))) d))
                  | Markers l => Markers l
                  end) positionals)
        optionals
  end.

(** Every dict of the tree has pairwise distinct keys, as a dict has. *)
Fixpoint dicts_valid (p : ArgumentParser) : bool :=
  match p with
  | Parser positionals _ =>
      forallb (fun a =>
                 match choices a with
                 | Subparsers d =>
                     nodupb (Py.keys d)
                     && forallb (fun e => dicts_valid (snd e)) d
                 | _ => true
                 end) positionals
  end.

(** Two trees that differ only in the insertion order of the entries of
    their dicts: the same keys lead to the same children, up to the same
    difference. *)
Definition same_up_to_order (t1 t2 : ArgumentParser) : Prop :=
  dicts_valid t1 = true /\ dicts_valid t2 = true
  /\ canonical t1 = canonical t2.

(** Two lines that differ only in the order of the options. *)
Definition line_sim (l1 l2 : line) : Prop :=
  match l1, l2 with
  | OptionsLine p1 o1, OptionsLine p2 o2 => p1 = p2 /\ Permutation o1 o2
  | CompgenLine p1 f1, CompgenLine p2 f2 => p1 = p2 /\ f1 = f2
  | _, _ => False
  end.

(** [scenario_B] with the choices of [remote] inserted in the other
    order. *)
Definition remote_parser' : ArgumentParser :=
  Parser [mkAction "cmd" (Subparsers [("add", leaf); ("remove", leaf)])] [].

Definition scenario_B' : ArgumentParser :=
  Parser [mkAction "cmd" (Subparsers [("remote", remote_parser')])] [].

(** What [canonical] keeps of a traversal. *)
Definition canonical_sim (p : ArgumentParser) : Prop :=
  forall prefix,
    Forall2 line_sim (written (print_bash_commands p prefix))
                     (written (print_bash_commands (canonical p) prefix))
    /\ outcome (print_bash_commands p prefix) =
       outcome (print_bash_commands (canonical p) prefix).

(** Two positionals that differ only in the insertion order of their
    dict of choices. *)
Definition action_reordered {P} (a b : Action P) : Prop :=
  dest a = dest b
  /\ match choices a, choices b with
     | Subparsers d1, Subparsers d2 =>
         NoDup (Py.keys d1) /\ Permutation d1 d2
     | NoChoices, NoChoices => True
     | Markers l1, Markers l2 => l1 = l2
     | _, _ => False
     end.

(** Two trees that differ only in the insertion order of the
    subcommands of the root. *)
Definition root_reordered (t1 t2 : ArgumentParser) : Prop :=
  _get_optional_actions t1 = _get_optional_actions t2
  /\ Forall2 action_reordered (_get_positional_actions t1)
                              (_get_positional_actions t2).

(** A root with two subcommands, inserted in one order and in the
    other. *)
Definition two_commands : ArgumentParser :=
  Parser [mkAction "cmd" (Subparsers [("push", add_parser); ("add", leaf)])]
         [mkOptional ["-h"; "--help"]].

Definition two_commands' : ArgumentParser :=
  Parser [mkAction "cmd" (Subparsers [("add", leaf); ("push", add_parser)])]
         [mkOptional ["-h"; "--help"]].

(** The lines of the children of a list, each run at its own prefix. *)
Definition lines_of {P} (run : P -> walker) (prefix : string)
    (l : list (string * P)) : list line :=
  flat_map (fun e => written (run (snd e) (child_prefix prefix (fst e)))) l.

(** A computation runs the children of [L] in order, as far as it gets:
    what it prints is the lines of a front part of [L], all of [L] when
    it returns. *)
Definition reaches {A} (prefix : string) (L : list (string * walker))
    (m : M line A) : Prop :=
  exists L1 L2,
    L = L1 ++ L2
    /\ written m = lines_of (fun w => w) prefix L1
    /\ forall r, outcome m = inr r -> L2 = [].

(** The shape of what the traversal of [p] prints at [prefix], whether
    it returns or raises: the options line, the lines of the children
    reached, and the strategy line when all were reached. *)
Definition shape (p : ArgumentParser) (prefix : string) : Prop :=
  exists L1 L2 tail,
    dispatch (_get_positional_actions p) = L1 ++ L2
    /\ written (print_bash_commands p prefix) =
       options_lines prefix p ++ lines_of print_bash_commands prefix L1
       ++ tail
    /\ (tail = []
        \/ L2 = []
           /\ tail = strategy_lines prefix
                       (classify (plain_names (_get_positional_actions p)))).

(** ** Further notions on the output *)

(** A strategy line of the node at [prefix]. *)
Definition compgen_at (prefix : string) (l : line) : bool :=
  match l with
  | CompgenLine q _ => String.eqb q prefix
  | OptionsLine _ _ => false
  end.

(** A positional with its [dest] replaced when it bears choices. *)
Definition rename_dispatch {P} (f : string -> string) (a : Action P)
  : Action P :=
  if choices_truthy (choices a) then mkAction (f (dest a)) (choices a) else a.

(** A list of strings has the members of another. *)
Definition same_members (l l' : list string) : Prop :=
  forall n, In n l <-> In n l'.

(** [Choice.__init__(self, choice_type, required=False)]. *)
Definition Choice_init (choice_type : string) : Choice :=
  mkChoice choice_type false.

(** [below_node p prefix q qprefix]: the traversal of [p] at [prefix]
    comes to call itself on [q] with [qprefix]. *)
Inductive below_node
  : ArgumentParser -> string -> ArgumentParser -> string -> Prop :=
| below_self p prefix : below_node p prefix p prefix
| below_step p prefix cmd child q qprefix :
    In (cmd, child) (dispatch (_get_positional_actions p)) ->
    below_node child (child_prefix prefix cmd) q qprefix ->
    below_node p prefix q qprefix.

(** The lines that a node prints for itself. *)
Definition own_lines (prefix : string) (p : ArgumentParser) : list line :=
  options_lines prefix p
  ++ strategy_lines prefix
       (classify (plain_names (_get_positional_actions p))).

(** Every line of the traversal of [p] at any prefix is a line that a
    node below [p] prints for itself. *)
Definition lines_from_nodes (p : ArgumentParser) : Prop :=
  forall prefix l,
    In l (written (print_bash_commands p prefix)) ->
    exists q qprefix,
      below_node p prefix q qprefix /\ In l (own_lines qprefix q).

(** * Properties *)

(** ** Printing computations *)

Section Computations.
Context {W : Type}.

Lemma appends_ret {A} (a : A) : appends (@ret W A a).
Proof. intros fd. unfold ret, written, outcome. simpl. now rewrite app_nil_r. Qed.

Lemma appends_raise {A} (e : exn) : appends (@raise W A e).
Proof. intros fd. unfold raise, written, outcome. simpl. now rewrite app_nil_r. Qed.

Lemma appends_print (w : W) : appends (print w).
Proof. intros fd. reflexivity. Qed.

Lemma run_bind {A B} (m : M W A) (k : A -> M W B) :
  appends m -> (forall a, appends (k a)) ->
  forall fd,
    bind m k fd =
    match outcome m with
    | inl e => (fd ++ written m, inl e)
    | inr a => (fd ++ written m ++ written (k a), outcome (k a))
    end.
Proof.
  intros Hm Hk fd. unfold bind. rewrite (Hm fd).
  destruct (outcome m) as [e|a]; [reflexivity|].
  rewrite (Hk a). now rewrite app_assoc.
Qed.

Lemma written_bind {A B} (m : M W A) (k : A -> M W B) :
  appends m -> (forall a, appends (k a)) ->
  written (bind m k) =
  written m ++ match outcome m with
               | inl _ => []
               | inr a => written (k a)
               end.
Proof.
  intros Hm Hk. unfold written at 1. rewrite (run_bind m k Hm Hk).
  destruct (outcome m); simpl; [now rewrite app_nil_r | reflexivity].
Qed.

Lemma outcome_bind {A B} (m : M W A) (k : A -> M W B) :
  appends m -> (forall a, appends (k a)) ->
  outcome (bind m k) =
  match outcome m with
  | inl e => inl e
  | inr a => outcome (k a)
  end.
Proof.
  intros Hm Hk. unfold outcome at 1. rewrite (run_bind m k Hm Hk).
  now destruct (outcome m).
Qed.

Lemma appends_bind {A B} (m : M W A) (k : A -> M W B) :
  appends m -> (forall a, appends (k a)) -> appends (bind m k).
Proof.
  intros Hm Hk fd. rewrite (run_bind m k Hm Hk fd).
  rewrite (written_bind m k Hm Hk), (outcome_bind m k Hm Hk).
  destruct (outcome m); [now rewrite app_nil_r | reflexivity].
Qed.

Lemma appends_for_each {A S} (l : list A) (body : A -> S -> M W S) :
  (forall x, In x l -> forall s, appends (body x s)) ->
  forall s, appends (for_each l body s).
Proof.
  induction l as [|x l IH]; intros Hb s; simpl.
  - apply appends_ret.
  - apply appends_bind; [apply Hb; now left|].
    intros s'. apply IH. intros y Hy. apply Hb. now right.
Qed.

Lemma emits_ret {A} Q (a : A) : emits Q (@ret W A a).
Proof. intros fd. exists []. simpl. now rewrite app_nil_r. Qed.

Lemma emits_raise {A} Q (e : exn) : emits Q (@raise W A e).
Proof. intros fd. exists []. simpl. now rewrite app_nil_r. Qed.

Lemma emits_print Q (w : W) : Q w -> emits Q (print w).
Proof. intros Hw fd. exists [w]. simpl. split; [reflexivity | now constructor]. Qed.

Lemma emits_bind {A B} Q (m : M W A) (k : A -> M W B) :
  emits Q m -> (forall a, emits Q (k a)) -> emits Q (bind m k).
Proof.
  intros Hm Hk fd. unfold bind. destruct (Hm fd) as [w1 [E1 H1]].
  destruct (m fd) as [fd' [e|a]]; simpl in *.
  - now exists w1.
  - destruct (Hk a fd') as [w2 [E2 H2]]. exists (w1 ++ w2).
    rewrite E2, E1, app_assoc. split; [reflexivity|].
    apply Forall_app. now split.
Qed.

Lemma emits_for_each {A S} Q (l : list A) (body : A -> S -> M W S) :
  (forall x, In x l -> forall s, emits Q (body x s)) ->
  forall s, emits Q (for_each l body s).
Proof.
  induction l as [|x l IH]; intros Hb s; simpl.
  - apply emits_ret.
  - apply emits_bind; [apply Hb; now left|].
    intros s'. apply IH. intros y Hy. apply Hb. now right.
Qed.

Lemma emits_weaken {A} (Q Q' : W -> Prop) (m : M W A) :
  (forall w, Q w -> Q' w) -> emits Q m -> emits Q' m.
Proof.
  intros HQ Hm fd. destruct (Hm fd) as [w [E H]]. exists w.
  split; [exact E|]. revert H. apply Forall_impl. exact HQ.
Qed.

Lemma emits_written {A} Q (m : M W A) : emits Q m -> Forall Q (written m).
Proof. intros H. destruct (H []) as [w [E Hw]]. unfold written. now rewrite E. Qed.

Lemma raises_only_ret {A} E (a : A) : raises_only E (@ret W A a).
Proof. intros fd e H. discriminate H. Qed.

Lemma raises_only_raise {A} (E : exn -> Prop) (e : exn) :
  E e -> raises_only E (@raise W A e).
Proof. intros He fd e' H. simpl in H. now injection H as <-. Qed.

Lemma raises_only_print E (w : W) : raises_only E (print w).
Proof. intros fd e H. discriminate H. Qed.

Lemma raises_only_bind {A B} E (m : M W A) (k : A -> M W B) :
  raises_only E m -> (forall a, raises_only E (k a)) ->
  raises_only E (bind m k).
Proof.
  intros Hm Hk fd e. unfold bind. specialize (Hm fd).
  destruct (m fd) as [fd' [e'|a]]; simpl in *.
  - intros H. injection H as <-. now apply Hm.
  - apply Hk.
Qed.

Lemma raises_only_for_each {A S} E (l : list A) (body : A -> S -> M W S) :
  (forall x, In x l -> forall s, raises_only E (body x s)) ->
  forall s, raises_only E (for_each l body s).
Proof.
  induction l as [|x l IH]; intros Hb s; simpl.
  - apply raises_only_ret.
  - apply raises_only_bind; [apply Hb; now left|].
    intros s'. apply IH. intros y Hy. apply Hb. now right.
Qed.

(** Two loops over one list with bodies that agree run alike. *)
Lemma for_each_ext {A S} (l : list A) (body body' : A -> S -> M W S) :
  (forall x, In x l -> forall s fd, body x s fd = body' x s fd) ->
  forall s fd, for_each l body s fd = for_each l body' s fd.
Proof.
  induction l as [|x l IH]; intros Hb s fd; simpl; [reflexivity|].
  unfold bind. rewrite (Hb x (or_introl eq_refl)).
  destruct (body' x s fd) as [fd' [e|s']]; [reflexivity|].
  apply IH. intros y Hy. apply Hb. now right.
Qed.

End Computations.

(** ** Strings *)

Section Strings.

Lemma append_nil_r (s : string) : s +++ EmptyString = s.
Proof. induction s as [|c s IH]; simpl; [reflexivity | now rewrite IH]. Qed.

Lemma append_assoc (a b c : string) : (a +++ b) +++ c = a +++ b +++ c.
Proof. induction a as [|x a IH]; simpl; [reflexivity | now rewrite IH]. Qed.

Lemma length_append (a b : string) :
  String.length (a +++ b) = String.length a + String.length b.
Proof. induction a as [|x a IH]; simpl; [reflexivity | now rewrite IH]. Qed.

Lemma append_inj_l (p a b : string) : p +++ a = p +++ b -> a = b.
Proof.
  induction p as [|x p IH]; simpl; intros H; [exact H|].
  injection H as H. now apply IH.
Qed.

Lemma append_longer (p s : string) : p +++ s = p -> s = EmptyString.
Proof.
  intros H. apply (f_equal String.length) in H.
  rewrite length_append in H. destruct s; [reflexivity | simpl in H; lia].
Qed.

Lemma startswith_spec (p s : string) :
  Py.startswith p s = true <-> exists t, s = p +++ t.
Proof.
  revert s. induction p as [|a p IH]; intros s; simpl.
  - split; [intros _; now exists s | reflexivity].
  - destruct s as [|b s].
    + split; [discriminate | intros [t Ht]; discriminate Ht].
    + rewrite andb_true_iff, Ascii.eqb_eq, IH. split.
      * intros [-> [t ->]]. now exists t.
      * intros [t Ht]. injection Ht as -> ->. split; [reflexivity | now exists t].
Qed.

(** [needle in hay] holds exactly when [hay] has [needle] as a block of
    consecutive characters. *)
Lemma contains_spec (needle hay : string) :
  Py.contains needle hay = true <->
  exists a b, hay = a +++ needle +++ b.
Proof.
  induction hay as [|c hay IH].
  - simpl. rewrite orb_false_r, startswith_spec. split.
    + intros [t Ht]. now exists EmptyString, t.
    + intros [a [b H]]. destruct a; [now exists b | discriminate H].
  - cbn [Py.contains]. rewrite orb_true_iff, startswith_spec, IH. split.
    + intros [[t Ht] | [a [b H]]].
      * now exists EmptyString, t.
      * exists (String c a), b. simpl. now rewrite H.
    + intros [a [b H]]. destruct a as [|x a].
      * left. now exists b.
      * right. simpl in H. injection H as _ H. now exists a, b.
Qed.

Lemma replace_length (a b : ascii) (s : string) :
  String.length (Py.replace a b s) = String.length s.
Proof. induction s as [|c s IH]; simpl; [reflexivity | now rewrite IH]. Qed.

Lemma child_prefix_length (prefix cmd : string) :
  String.length (child_prefix prefix cmd) =
  String.length prefix + 1 + String.length cmd.
Proof.
  unfold child_prefix. rewrite !length_append, replace_length. simpl. lia.
Qed.

(** The order of [sorted] on strings is a strict total order. *)
Lemma ascii_compare_refl (a : ascii) : Ascii.compare a a = Eq.
Proof. apply N.compare_refl. Qed.

Lemma compare_refl (s : string) : String.compare s s = Eq.
Proof.
  induction s as [|c s IH]; simpl; [reflexivity|].
  now rewrite ascii_compare_refl.
Qed.

Lemma compare_lt_trans (a b c : string) :
  String.compare a b = Lt -> String.compare b c = Lt ->
  String.compare a c = Lt.
Proof.
  revert b c. induction a as [|x a IH]; intros [|y b] [|z c]; simpl;
    try discriminate; try reflexivity.
  unfold Ascii.compare.
  destruct (N.compare_spec (N_of_ascii x) (N_of_ascii y)) as [Hxy|Hxy|Hxy];
    destruct (N.compare_spec (N_of_ascii y) (N_of_ascii z)) as [Hyz|Hyz|Hyz];
    try discriminate; intros H1 H2.
  - rewrite Hxy, Hyz, N.compare_refl. now apply (IH b).
  - rewrite Hxy. now apply N.compare_lt_iff in Hyz as ->.
  - rewrite <- Hyz. now apply N.compare_lt_iff in Hxy as ->.
  - assert (H : (N_of_ascii x < N_of_ascii z)%N) by lia.
    now apply N.compare_lt_iff in H as ->.
Qed.

Lemma ltb_irrefl (a : string) : String.ltb a a = false.
Proof. unfold String.ltb. now rewrite compare_refl. Qed.

Lemma ltb_trans (a b c : string) :
  String.ltb a b = true -> String.ltb b c = true -> String.ltb a c = true.
Proof.
  unfold String.ltb. intros H1 H2.
  destruct (String.compare a b) eqn:E1; try discriminate.
  destruct (String.compare b c) eqn:E2; try discriminate.
  now rewrite (compare_lt_trans a b c E1 E2).
Qed.

Lemma ltb_total (a b : string) :
  String.ltb a b = false -> String.ltb b a = false -> a = b.
Proof.
  unfold String.ltb. rewrite (String.compare_antisym a b).
  destruct (String.compare b a) eqn:E; simpl; try discriminate.
  intros _ _. symmetry. now apply String.compare_eq_iff.
Qed.

End Strings.

(** ** Sorting *)

Section Sorting.
Context {A : Type} (lt : A -> A -> bool).

Lemma insert_perm (x : A) (l : list A) :
  Permutation (Py.insert lt x l) (x :: l).
Proof.
  induction l as [|y l IH]; simpl; [reflexivity|].
  destruct (lt y x); [|reflexivity].
  rewrite IH. apply perm_swap.
Qed.

Lemma sorted_perm (l : list A) : Permutation (Py.sorted lt l) l.
Proof.
  induction l as [|x l IH]; simpl; [reflexivity|].
  rewrite insert_perm. now constructor.
Qed.

Lemma sorted_in (x : A) (l : list A) : In x (Py.sorted lt l) <-> In x l.
Proof.
  split; apply Permutation_in;
    [apply sorted_perm | symmetry; apply sorted_perm].
Qed.

Lemma sorted_nonempty (l : list A) :
  Py.truthy_list l = true -> Py.truthy_list (Py.sorted lt l) = true.
Proof.
  destruct l as [|x l]; [discriminate|]. intros _.
  destruct (Py.sorted lt (x :: l)) as [|y s] eqn:E; [|reflexivity].
  pose proof (sorted_perm (x :: l)) as H. rewrite E in H.
  now apply Permutation_nil in H.
Qed.

Hypothesis lt_irrefl : forall a, lt a a = false.
Hypothesis lt_trans :
  forall a b c, lt a b = true -> lt b c = true -> lt a c = true.
Hypothesis lt_total : forall a b, lt a b = false -> lt b a = false -> a = b.

Lemma lt_asym (a b : A) : lt a b = true -> lt b a = false.
Proof.
  intros H. destruct (lt b a) eqn:E; [|reflexivity].
  rewrite <- (lt_irrefl a). symmetry. now apply (lt_trans a b a).
Qed.

Lemma le_lt_trans (a b c : A) :
  lt b a = false -> lt b c = true -> lt a c = true.
Proof.
  intros H1 H2. destruct (lt a b) eqn:E.
  - now apply (lt_trans a b c).
  - now rewrite (lt_total a b E H1).
Qed.

Lemma lt_le_trans (a b c : A) :
  lt a b = true -> lt c b = false -> lt a c = true.
Proof.
  intros H1 H2. destruct (lt b c) eqn:E.
  - now apply (lt_trans a b c).
  - now rewrite <- (lt_total b c E H2).
Qed.

(** Insertion does not depend on the order of insertion. *)
Lemma insert_comm (x y : A) (l : list A) :
  Py.insert lt x (Py.insert lt y l) = Py.insert lt y (Py.insert lt x l).
Proof.
  induction l as [|z l IH]; simpl.
  - destruct (lt y x) eqn:Eyx, (lt x y) eqn:Exy; try reflexivity.
    + now rewrite (lt_asym y x Eyx) in Exy.
    + now rewrite (lt_total x y Exy Eyx).
  - destruct (lt z y) eqn:Ezy, (lt z x) eqn:Ezx; simpl;
      rewrite ?Ezy, ?Ezx.
    + now rewrite IH.
    + now rewrite (le_lt_trans x z y Ezx Ezy).
    + now rewrite (le_lt_trans y z x Ezy Ezx).
    + destruct (lt y x) eqn:Eyx, (lt x y) eqn:Exy; try reflexivity.
      * now rewrite (lt_asym y x Eyx) in Exy.
      * now rewrite (lt_total x y Exy Eyx).
Qed.

(** [sorted] gives one result for all orders of a list's elements. *)
Lemma sorted_permutation (l l' : list A) :
  Permutation l l' -> Py.sorted lt l = Py.sorted lt l'.
Proof.
  induction 1 as [|x l l' _ IH|x y l|l l' l'' _ IH1 _ IH2]; simpl.
  - reflexivity.
  - now rewrite IH.
  - apply insert_comm.
  - now rewrite IH1.
Qed.

Lemma sorted_idem (l : list A) : Py.sorted lt (Py.sorted lt l) = Py.sorted lt l.
Proof. apply sorted_permutation, sorted_perm. Qed.

Lemma insert_sorted (x : A) (l : list A) :
  StronglySorted (fun a b => lt b a = false) l ->
  StronglySorted (fun a b => lt b a = false) (Py.insert lt x l).
Proof.
  induction 1 as [|y l Hl IH Hy]; simpl; [repeat constructor|].
  destruct (lt y x) eqn:E.
  - constructor; [exact IH|].
    eapply Permutation_Forall; [symmetry; apply insert_perm|].
    constructor; [now apply lt_asym | exact Hy].
  - constructor; [now constructor|].
    constructor; [exact E|].
    revert Hy. apply Forall_impl. intros z Hz.
    destruct (lt z x) eqn:Ezx; [|reflexivity].
    now rewrite (lt_le_trans z x y Ezx E) in Hz.
Qed.

Lemma sorted_sorted (l : list A) :
  StronglySorted (fun a b => lt b a = false) (Py.sorted lt l).
Proof.
  induction l as [|x l IH]; simpl; [constructor | now apply insert_sorted].
Qed.

End Sorting.

(** ** Trees, dicts and the options of a node *)

Section Trees.

Lemma ArgumentParser_tree_ind (Q : ArgumentParser -> Prop) :
  (forall positionals optionals,
      Forall (children_all Q) positionals ->
      Q (Parser positionals optionals)) ->
  forall p, Q p.
Proof.
  intros H. fix IH 1. intros [pos opt]. apply H.
  induction pos as [|a pos IHpos]; constructor; [|exact IHpos].
  destruct a as [dst [|d|l]]; unfold children_all; simpl; try exact I.
  induction d as [|[k c] d IHd]; constructor; [apply IH | exact IHd].
Qed.

Lemma children_all_map {P R} (f : P -> R) (Q : R -> Prop) (a : Action P) :
  children_all (fun c => Q (f c)) a -> children_all Q (Action_map f a).
Proof.
  destruct a as [dst [|d|l]]; unfold children_all; simpl; auto.
  intros H. apply Forall_map. exact H.
Qed.

Lemma Forall_children_map {P R} (f : P -> R) (Q : R -> Prop)
    (positionals : list (Action P)) :
  Forall (children_all (fun c => Q (f c))) positionals ->
  Forall (children_all Q) (map (Action_map f) positionals).
Proof.
  intros H. apply Forall_map. revert H. apply Forall_impl.
  intros a. apply children_all_map.
Qed.

Lemma dict_get_in {V} (d : list (string * V)) (k : string) :
  In k (Py.keys d) -> exists v, Py.dict_get d k = Some v.
Proof.
  induction d as [|[k' v] d IH]; simpl; [intros []|].
  destruct (String.eqb_spec k' k) as [->|Hne]; [intros _; now exists v|].
  intros [H|H]; [contradiction | now apply IH].
Qed.

Lemma dict_get_some {V} (d : list (string * V)) (k : string) (v : V) :
  Py.dict_get d k = Some v -> In (k, v) d.
Proof.
  induction d as [|[k' v'] d IH]; simpl; [discriminate|].
  destruct (String.eqb_spec k' k) as [->|Hne].
  - intros H. injection H as ->. now left.
  - intros H. right. now apply IH.
Qed.

Lemma dict_get_map {V U} (f : V -> U) (d : list (string * V)) (k : string) :
  Py.dict_get (map (fun e => (fst e, f (snd e))) d) k =
  option_map f (Py.dict_get d k).
Proof.
  induction d as [|[k' v] d IH]; simpl; [reflexivity|].
  now destruct (String.eqb k' k).
Qed.

Lemma keys_map {V U} (f : V -> U) (d : list (string * V)) :
  Py.keys (map (fun e => (fst e, f (snd e))) d) = Py.keys d.
Proof. unfold Py.keys. rewrite map_map. reflexivity. Qed.

Lemma choices_truthy_map {P R} (f : P -> R) (c : Choices P) :
  choices_truthy (Choices_map f c) = choices_truthy c.
Proof. destruct c as [|[|e d]|l]; reflexivity. Qed.

Lemma choices_iter_map {P R} (f : P -> R) (c : Choices P) :
  choices_iter (Choices_map f c) = choices_iter c.
Proof. destruct c as [|d|l]; simpl; try reflexivity. now rewrite keys_map. Qed.

Lemma node_opts_map {P R} (f : P -> R) (positionals : list (Action P))
    (optionals : list OptionalAction) :
  node_opts (map (Action_map f) positionals) optionals =
  node_opts positionals optionals.
Proof.
  unfold node_opts. do 2 f_equal.
  induction positionals as [|a pos IH]; simpl; [reflexivity|].
  now rewrite IH, choices_truthy_map, choices_iter_map.
Qed.

Lemma plain_names_map {P R} (f : P -> R) (positionals : list (Action P)) :
  plain_names (map (Action_map f) positionals) = plain_names positionals.
Proof.
  unfold plain_names, plain.
  induction positionals as [|a pos IH]; simpl; [reflexivity|].
  rewrite choices_truthy_map.
  destruct (choices_truthy (choices a)); simpl; now rewrite IH.
Qed.

Lemma completable_dests_map {P R} (f : P -> R)
    (positionals : list (Action P)) :
  completable_dests (map (Action_map f) positionals) =
  completable_dests positionals.
Proof. unfold completable_dests. now rewrite plain_names_map. Qed.

Lemma dispatched_map {P R} (f : P -> R) (a : Action P) :
  dispatched (Action_map f a) =
  map (fun e => (fst e, f (snd e))) (dispatched a).
Proof.
  destruct a as [dst [|d|l]]; unfold dispatched; simpl; try reflexivity.
  rewrite keys_map.
  induction (Py.sorted String.ltb (Py.keys d)) as [|k ks IH]; simpl;
    [reflexivity|].
  rewrite map_app, <- IH, dict_get_map.
  now destruct (Py.dict_get d k).
Qed.

Lemma dispatch_map {P R} (f : P -> R) (positionals : list (Action P)) :
  dispatch (map (Action_map f) positionals) =
  map (fun e => (fst e, f (snd e))) (dispatch positionals).
Proof.
  unfold dispatch.
  induction positionals as [|a pos IH]; simpl; [reflexivity|].
  now rewrite map_app, <- IH, dispatched_map.
Qed.

(** Every child reached is stored in the choices of a positional. *)
Lemma dispatch_children {P} (Q : P -> Prop) (positionals : list (Action P)) :
  Forall (children_all Q) positionals ->
  Forall (fun e => Q (snd e)) (dispatch positionals).
Proof.
  unfold dispatch. induction 1 as [|a pos Ha _ IH]; simpl; [constructor|].
  apply Forall_app. split; [|exact IH].
  unfold dispatched, children_all in *. destruct (choices a) as [|d|l];
    try constructor.
  induction (Py.sorted String.ltb (Py.keys d)) as [|k ks IHk]; simpl;
    [constructor|].
  apply Forall_app. split; [|exact IHk].
  destruct (Py.dict_get d k) as [c|] eqn:E; constructor; [|constructor].
  apply dict_get_some in E.
  now apply (proj1 (Forall_forall _ _) Ha (k, c)).
Qed.

(** A marker equals every string of [GLOBAL_OPTIONS], so the filter
    drops it. *)
Lemma in_GLOBAL_OPTIONS_choice (c : Choice) :
  in_GLOBAL_OPTIONS (OChoice c) = true.
Proof. destruct c as [t [|]]; reflexivity. Qed.

Lemma in_GLOBAL_OPTIONS_str (s : string) :
  in_GLOBAL_OPTIONS (OStr s) = Py.str_in s GLOBAL_OPTIONS.
Proof.
  unfold in_GLOBAL_OPTIONS, Py.str_in, GLOBAL_OPTIONS. simpl.
  now rewrite !(String.eqb_sym s).
Qed.

Lemma strs_filter (l : list opt_item) :
  strs (filter (fun i => negb (in_GLOBAL_OPTIONS i)) l) =
  Some (filter (fun s => negb (Py.str_in s GLOBAL_OPTIONS))
               (item_strings l)).
Proof.
  induction l as [|[s|c] l IH]; [reflexivity| |].
  - cbn [filter item_strings flat_map app]. rewrite in_GLOBAL_OPTIONS_str.
    destruct (Py.str_in s GLOBAL_OPTIONS); cbn [negb strs]; now rewrite IH.
  - cbn [filter item_strings flat_map app].
    now rewrite in_GLOBAL_OPTIONS_choice.
Qed.

Lemma item_strings_app (l l' : list opt_item) :
  item_strings (l ++ l') = item_strings l ++ item_strings l'.
Proof. unfold item_strings. apply flat_map_app. Qed.

Lemma item_strings_OStr (l : list string) : item_strings (map OStr l) = l.
Proof. induction l as [|s l IH]; simpl; [reflexivity | now rewrite IH]. Qed.

Lemma item_strings_OChoice (l : list Choice) :
  item_strings (map OChoice l) = [].
Proof. induction l as [|c l IH]; simpl; [reflexivity | exact IH]. Qed.

(** Joining the options never fails: the list printed is
    [visibleOptions]. *)
Lemma strs_node_opts {P} (positionals : list (Action P))
    (optionals : list OptionalAction) :
  strs (node_opts positionals optionals) =
  Some (visibleOptions positionals optionals).
Proof.
  unfold node_opts, visibleOptions. rewrite strs_filter. do 2 f_equal.
  rewrite item_strings_app, item_strings_OStr. f_equal.
  unfold choice_strings.
  induction positionals as [|a pos IH]; simpl; [reflexivity|].
  rewrite item_strings_app, IH. f_equal.
  destruct (choices a) as [|[|e d]|[|c l]]; simpl; try reflexivity.
  - f_equal. apply item_strings_OStr.
  - apply item_strings_OChoice.
Qed.

Lemma visibleOptions_not_global {P} (positionals : list (Action P))
    (optionals : list OptionalAction) (o : string) :
  In o (visibleOptions positionals optionals) -> ~ In o GLOBAL_OPTIONS.
Proof.
  unfold visibleOptions. rewrite filter_In. intros [_ H] Hin.
  apply negb_true_iff in H. unfold Py.str_in in H.
  assert (E : existsb (String.eqb o) GLOBAL_OPTIONS = true).
  { apply existsb_exists. exists o. split; [exact Hin | apply String.eqb_refl]. }
  congruence.
Qed.

End Trees.

(** ** The traversal, one construct at a time *)

Section Prefixes.

Lemma under_refl (prefix : string) : under prefix prefix.
Proof. now left. Qed.

Lemma below_child (prefix cmd x : string) :
  under (child_prefix prefix cmd) x -> below prefix x.
Proof.
  unfold child_prefix. intros [->|[rest ->]].
  - now exists (Py.replace "-" "_" cmd).
  - exists (Py.replace "-" "_" cmd +++ "_" +++ rest).
    now rewrite !append_assoc.
Qed.

Lemma below_neq (prefix x : string) : below prefix x -> x <> prefix.
Proof.
  intros [rest ->] H. apply append_longer in H. discriminate H.
Qed.

Lemma line_ok_child (prefix cmd : string) (l : line) :
  line_ok (child_prefix prefix cmd) l -> line_ok prefix l.
Proof.
  intros [H1 H2]. split; [|exact H2]. right. now apply (below_child _ cmd).
Qed.

Lemma child_prefix_not_root (prefix cmd : string) :
  under ROOT_PREFIX prefix ->
  String.eqb (child_prefix prefix cmd) ROOT_PREFIX = false.
Proof.
  intros H. apply String.eqb_neq. apply below_neq.
  destruct H as [->|H].
  - apply (below_child _ cmd). apply under_refl.
  - destruct H as [rest ->].
    exists (rest +++ "_" +++ Py.replace "-" "_" cmd).
    unfold child_prefix. now rewrite !append_assoc.
Qed.

End Prefixes.

Section Steps.

Ltac comp :=
  first
    [ apply appends_ret | apply appends_raise | apply appends_print
    | apply emits_ret | apply emits_raise
    | apply raises_only_ret | apply raises_only_print
    | apply raises_only_raise; reflexivity ].

Lemma print_options_outcome (prefix : string)
    (positionals : list (Action walker)) (optionals : list OptionalAction) :
  forall fd, snd (print_options prefix positionals optionals fd) = inr tt.
Proof.
  intros fd. unfold print_options.
  destruct (String.eqb prefix ROOT_PREFIX); [reflexivity|].
  now rewrite strs_node_opts.
Qed.

Lemma print_options_appends (prefix : string)
    (positionals : list (Action walker)) (optionals : list OptionalAction) :
  appends (print_options prefix positionals optionals).
Proof.
  unfold print_options. destruct (String.eqb prefix ROOT_PREFIX); [comp|].
  rewrite strs_node_opts. comp.
Qed.

Lemma print_options_emits (prefix : string)
    (positionals : list (Action walker)) (optionals : list OptionalAction) :
  emits (line_ok prefix) (print_options prefix positionals optionals).
Proof.
  unfold print_options. destruct (String.eqb prefix ROOT_PREFIX); [comp|].
  rewrite strs_node_opts. apply emits_print. split.
  - apply under_refl.
  - apply visibleOptions_not_global.
Qed.

Lemma print_options_raises (prefix : string)
    (positionals : list (Action walker)) (optionals : list OptionalAction) :
  raises_only (eq TypeError) (print_options prefix positionals optionals).
Proof.
  unfold print_options. destruct (String.eqb prefix ROOT_PREFIX); [comp|].
  rewrite strs_node_opts. comp.
Qed.

Lemma print_compgen_appends (prefix : string) (dests : list string) :
  appends (print_compgen prefix dests).
Proof.
  unfold print_compgen. destruct (Py.truthy_list dests); [|comp].
  destruct (negb _); comp.
Qed.

Lemma print_compgen_emits (prefix : string) (dests : list string) :
  emits (line_ok prefix) (print_compgen prefix dests).
Proof.
  unfold print_compgen. destruct (Py.truthy_list dests); [|comp].
  destruct (negb _); apply emits_print; (split; [apply under_refl | intros o []]).
Qed.

Lemma print_compgen_outcome (prefix : string) (dests : list string) :
  forall fd, snd (print_compgen prefix dests fd) = inr tt.
Proof.
  intros fd. unfold print_compgen. destruct (Py.truthy_list dests);
    [|reflexivity].
  now destruct (negb _).
Qed.

Lemma print_compgen_raises (prefix : string) (dests : list string) :
  raises_only (eq TypeError) (print_compgen prefix dests).
Proof. intros fd e H. now rewrite print_compgen_outcome in H. Qed.

Lemma child_in (d : list (string * walker)) (Q : walker -> Prop)
    (cmd : string) (child : walker) :
  Forall (fun e => Q (snd e)) d -> Py.dict_get d cmd = Some child -> Q child.
Proof.
  intros H E. apply dict_get_some in E.
  now apply (proj1 (Forall_forall _ _) H (cmd, child)).
Qed.

Lemma visit_choices_appends (sub : Action walker) (prefix : string)
    (commands : list string) :
  children_all walker_appends sub ->
  appends (visit_choices sub prefix commands).
Proof.
  unfold visit_choices, children_all. destruct (choices sub) as [|d|l];
    intros H; [comp| |].
  - apply appends_for_each. intros cmd _ s. unfold visit_command.
    destruct (Py.dict_get d cmd) as [child|] eqn:E; [|comp].
    apply appends_bind; [|intros; comp].
    apply (child_in d walker_appends cmd child H E).
  - apply appends_for_each. intros; comp.
Qed.

Lemma visit_choices_emits (sub : Action walker) (prefix : string)
    (commands : list string) :
  children_all walker_emits_ok sub ->
  emits (line_ok prefix) (visit_choices sub prefix commands).
Proof.
  unfold visit_choices, children_all. destruct (choices sub) as [|d|l];
    intros H; [comp| |].
  - apply emits_for_each. intros cmd _ s. unfold visit_command.
    destruct (Py.dict_get d cmd) as [child|] eqn:E; [|comp].
    apply emits_bind; [|intros; comp].
    apply (emits_weaken (line_ok (child_prefix prefix cmd)));
      [apply line_ok_child|].
    apply (child_in d walker_emits_ok cmd child H E).
  - apply emits_for_each. intros; comp.
Qed.

Lemma visit_choices_raises (sub : Action walker) (prefix : string)
    (commands : list string) :
  children_all walker_raises_TypeError sub ->
  raises_only (eq TypeError) (visit_choices sub prefix commands).
Proof.
  unfold visit_choices, children_all. destruct (choices sub) as [|d|l];
    intros H; [comp| |].
  - apply raises_only_for_each. intros cmd Hin s.
    apply sorted_in, dict_get_in in Hin. destruct Hin as [child E].
    unfold visit_command. rewrite E. apply raises_only_bind; [|intros; comp].
    apply (child_in d walker_raises_TypeError cmd child H E).
  - apply raises_only_for_each. intros; comp.
Qed.

Lemma visit_positional_appends (prefix : string) (sub : Action walker)
    (st : list string * list string) :
  children_all walker_appends sub ->
  appends (visit_positional prefix sub st).
Proof.
  intros H. destruct st as [commands dests]. unfold visit_positional.
  destruct (choices_truthy (choices sub)).
  - apply appends_bind; [now apply visit_choices_appends | intros; comp].
  - destruct (negb _); comp.
Qed.

Lemma visit_positional_emits (prefix : string) (sub : Action walker)
    (st : list string * list string) :
  children_all walker_emits_ok sub ->
  emits (line_ok prefix) (visit_positional prefix sub st).
Proof.
  intros H. destruct st as [commands dests]. unfold visit_positional.
  destruct (choices_truthy (choices sub)).
  - apply emits_bind; [now apply visit_choices_emits | intros; comp].
  - destruct (negb _); comp.
Qed.

Lemma visit_positional_raises (prefix : string) (sub : Action walker)
    (st : list string * list string) :
  children_all walker_raises_TypeError sub ->
  raises_only (eq TypeError) (visit_positional prefix sub st).
Proof.
  intros H. destruct st as [commands dests]. unfold visit_positional.
  destruct (choices_truthy (choices sub)).
  - apply raises_only_bind; [now apply visit_choices_raises | intros; comp].
  - destruct (negb _); comp.
Qed.

Lemma loop_appends (prefix : string) (positionals : list (Action walker))
    (st : list string * list string) :
  Forall (children_all walker_appends) positionals ->
  appends (for_each positionals (visit_positional prefix) st).
Proof.
  intros H. apply appends_for_each. intros sub Hin s.
  apply visit_positional_appends.
  now apply (proj1 (Forall_forall _ _) H).
Qed.

Lemma step_appends (positionals : list (Action walker))
    (optionals : list OptionalAction) :
  Forall (children_all walker_appends) positionals ->
  walker_appends (print_bash_commands_step positionals optionals).
Proof.
  intros H prefix. unfold print_bash_commands_step.
  apply appends_bind; [apply print_options_appends|]. intros _.
  apply appends_bind; [now apply loop_appends|]. intros st.
  apply appends_bind; [apply print_compgen_appends | intros; comp].
Qed.

Lemma step_emits (positionals : list (Action walker))
    (optionals : list OptionalAction) :
  Forall (children_all walker_emits_ok) positionals ->
  walker_emits_ok (print_bash_commands_step positionals optionals).
Proof.
  intros H prefix. unfold print_bash_commands_step.
  apply emits_bind; [apply print_options_emits|]. intros _.
  apply emits_bind.
  - apply emits_for_each. intros sub Hin s. apply visit_positional_emits.
    now apply (proj1 (Forall_forall _ _) H).
  - intros st. apply emits_bind; [apply print_compgen_emits | intros; comp].
Qed.

Lemma step_raises (positionals : list (Action walker))
    (optionals : list OptionalAction) :
  Forall (children_all walker_raises_TypeError) positionals ->
  walker_raises_TypeError (print_bash_commands_step positionals optionals).
Proof.
  intros H prefix. unfold print_bash_commands_step.
  apply raises_only_bind; [apply print_options_raises|]. intros _.
  apply raises_only_bind.
  - apply raises_only_for_each. intros sub Hin s.
    apply visit_positional_raises.
    now apply (proj1 (Forall_forall _ _) H).
  - intros st.
    apply raises_only_bind; [apply print_compgen_raises | intros; comp].
Qed.

(** The traversal only appends to its sink, whatever the sink holds. *)
Lemma print_bash_commands_appends (p : ArgumentParser) :
  walker_appends (print_bash_commands p).
Proof.
  induction p as [pos opt IH] using ArgumentParser_tree_ind. simpl.
  apply step_appends. now apply Forall_children_map.
Qed.

(** Every line printed names the node's prefix or one below it, and
    holds no global option. *)
Lemma print_bash_commands_emits (p : ArgumentParser) :
  walker_emits_ok (print_bash_commands p).
Proof.
  induction p as [pos opt IH] using ArgumentParser_tree_ind. simpl.
  apply step_emits. now apply Forall_children_map.
Qed.

(** The traversal raises nothing but [TypeError]. *)
Lemma print_bash_commands_raises (p : ArgumentParser) :
  walker_raises_TypeError (print_bash_commands p).
Proof.
  induction p as [pos opt IH] using ArgumentParser_tree_ind. simpl.
  apply step_raises. now apply Forall_children_map.
Qed.

End Steps.

(** ** The traversal of a tree without markers *)

Section Returns.

Lemma completable_dests_cons {P} (a : Action P) (pos : list (Action P)) :
  completable_dests (a :: pos) =
  (if plain a && negb (uncompletable (dest a)) then [dest a] else [])
  ++ completable_dests pos.
Proof.
  unfold completable_dests, plain_names. simpl.
  destruct (plain a); simpl; [|reflexivity].
  now destruct (negb (uncompletable (dest a))).
Qed.

(** Whatever happens in the loop, when it ends [dest] holds the names
    of the plain positionals that match no denylist entry. *)
Lemma loop_dests (prefix : string) (positionals : list (Action walker)) :
  forall commands dests fd fd' commands' dests',
    for_each positionals (visit_positional prefix) (commands, dests) fd
    = (fd', inr (commands', dests')) ->
    dests' = dests ++ completable_dests positionals.
Proof.
  induction positionals as [|a pos IH]; intros c0 d0 fd fd' c d;
    cbn [for_each].
  - unfold ret. intros H. injection H as _ _ <-. now rewrite app_nil_r.
  - unfold bind at 1.
    destruct (visit_positional prefix a (c0, d0) fd) as [fd1 [e|[c1 d1]]] eqn:E;
      [discriminate|].
    intros H. apply IH in H. subst d.
    rewrite completable_dests_cons, app_assoc. f_equal.
    unfold visit_positional in E. unfold plain.
    destruct (choices_truthy (choices a)); simpl.
    + unfold bind in E.
      destruct (visit_choices a prefix c0 fd) as [fd2 [e|c2]];
        [discriminate|].
      unfold ret in E. injection E as _ _ <-. now rewrite app_nil_r.
    + destruct (negb (uncompletable (dest a))); unfold ret in E;
        injection E as _ _ <-; [reflexivity | now rewrite app_nil_r].
Qed.

Lemma visit_command_returns (d : list (string * walker)) (prefix cmd : string)
    (child : walker) (commands : list string) (fd : StringIO line) :
  Py.dict_get d cmd = Some child -> well_behaved child ->
  visit_command d prefix cmd commands fd =
  (fd ++ written (child (child_prefix prefix cmd)), inr (commands ++ [cmd])).
Proof.
  intros E [Ha Hr]. unfold visit_command. rewrite E. unfold bind.
  rewrite (Ha (child_prefix prefix cmd) fd).
  destruct (Hr (child_prefix prefix cmd)) as [c ->]. reflexivity.
Qed.

Lemma visit_keys_returns (d : list (string * walker)) (prefix : string) :
  Forall (fun e => well_behaved (snd e)) d ->
  forall ks, (forall k, In k ks -> In k (Py.keys d)) ->
  forall commands fd,
    for_each ks (visit_command d prefix) commands fd =
    (fd ++ flat_map
             (fun e => written (snd e (child_prefix prefix (fst e))))
             (flat_map (fun cmd =>
                          match Py.dict_get d cmd with
                          | Some child => [(cmd, child)]
                          | None => []
                          end) ks),
     inr (commands ++ ks)).
Proof.
  intros Hd. induction ks as [|k ks IH]; intros Hks c0 fd; simpl.
  - unfold ret. now rewrite !app_nil_r.
  - destruct (dict_get_in d k (Hks k (or_introl eq_refl))) as [child E].
    unfold bind at 1.
    rewrite (visit_command_returns d prefix k child c0 fd E
               (child_in d well_behaved k child Hd E)).
    rewrite IH by (intros k' Hk'; apply Hks; now right).
    rewrite E. simpl. now rewrite <- !app_assoc.
Qed.

Lemma map_fst_dispatched {P} (sub : Action P) :
  map fst (dispatched sub) =
  match choices sub with
  | Subparsers d => Py.sorted String.ltb (Py.keys d)
  | _ => []
  end.
Proof.
  unfold dispatched. destruct (choices sub) as [|d|l]; try reflexivity.
  assert (H : forall k, In k (Py.sorted String.ltb (Py.keys d)) ->
                        In k (Py.keys d)) by (intros k; apply sorted_in).
  induction (Py.sorted String.ltb (Py.keys d)) as [|k ks IH]; simpl;
    [reflexivity|].
  rewrite map_app, IH by (intros k' Hk'; apply H; now right).
  destruct (dict_get_in d k (H k (or_introl eq_refl))) as [c ->].
  reflexivity.
Qed.

Lemma visit_positional_returns (prefix : string) (sub : Action walker)
    (commands dests : list string) (fd : StringIO line) :
  children_all well_behaved sub -> no_markers sub = true ->
  visit_positional prefix sub (commands, dests) fd =
  (fd ++ flat_map (fun e => written (snd e (child_prefix prefix (fst e))))
                  (dispatched sub),
   inr (commands ++ map fst (dispatched sub),
        dests ++ if plain sub && negb (uncompletable (dest sub))
                 then [dest sub] else [])).
Proof.
  intros Hc Hm. rewrite map_fst_dispatched.
  unfold visit_positional, visit_choices, dispatched, plain, children_all,
    no_markers in *.
  destruct (choices sub) as [|d|l]; simpl.
  - destruct (negb (uncompletable (dest sub))); unfold ret;
      now rewrite !app_nil_r.
  - destruct (Py.truthy_list d) eqn:Et.
    + unfold bind. rewrite (visit_keys_returns d prefix Hc)
        by (intros k; apply sorted_in).
      unfold ret. simpl. now rewrite app_nil_r.
    + destruct d; [|discriminate]. simpl.
      destruct (negb (uncompletable (dest sub))); unfold ret;
        now rewrite !app_nil_r.
  - apply negb_true_iff in Hm. rewrite Hm. simpl.
    destruct (negb (uncompletable (dest sub))); unfold ret;
      now rewrite !app_nil_r.
Qed.

Lemma loop_returns (prefix : string) (positionals : list (Action walker)) :
  Forall (children_all well_behaved) positionals ->
  forallb no_markers positionals = true ->
  forall commands dests fd,
    for_each positionals (visit_positional prefix) (commands, dests) fd =
    (fd ++ children_lines (fun w => w) prefix positionals,
     inr (commands ++ map fst (dispatch positionals),
          dests ++ completable_dests positionals)).
Proof.
  unfold children_lines, dispatch.
  induction 1 as [|a pos Ha _ IH]; intros Hm c0 d0 fd;
    cbn [for_each flat_map forallb] in *.
  - unfold ret. cbn [map completable_dests plain_names filter].
    now rewrite !app_nil_r.
  - apply andb_true_iff in Hm. destruct Hm as [Hm1 Hm2].
    unfold bind at 1. rewrite (visit_positional_returns _ _ _ _ _ Ha Hm1).
    rewrite (IH Hm2). rewrite completable_dests_cons.
    now rewrite flat_map_app, map_app, <- !app_assoc.
Qed.

Lemma step_returns (positionals : list (Action walker))
    (optionals : list OptionalAction) (prefix : string)
    (fd : StringIO line) :
  Forall (children_all well_behaved) positionals ->
  forallb no_markers positionals = true ->
  print_bash_commands_step positionals optionals prefix fd =
  (fd ++ (if String.eqb prefix ROOT_PREFIX then []
          else [OptionsLine prefix (visibleOptions positionals optionals)])
      ++ children_lines (fun w => w) prefix positionals
      ++ written (print_compgen prefix (completable_dests positionals)),
   inr (map fst (dispatch positionals))).
Proof.
  intros Hc Hm. unfold print_bash_commands_step.
  unfold bind at 1.
  assert (E : print_options prefix positionals optionals fd =
              (fd ++ (if String.eqb prefix ROOT_PREFIX then []
                      else [OptionsLine prefix
                              (visibleOptions positionals optionals)]),
               inr tt)).
  { unfold print_options. destruct (String.eqb prefix ROOT_PREFIX).
    - unfold ret. now rewrite app_nil_r.
    - now rewrite strs_node_opts. }
  rewrite E. unfold bind at 1. rewrite (loop_returns prefix positionals Hc Hm).
  cbn [fst snd app]. unfold bind.
  rewrite (print_compgen_appends prefix (completable_dests positionals)).
  unfold outcome. rewrite print_compgen_outcome. unfold ret.
  now rewrite <- !app_assoc.
Qed.

Lemma visibleOptions_map {P R} (f : P -> R) (positionals : list (Action P))
    (optionals : list OptionalAction) :
  visibleOptions (map (Action_map f) positionals) optionals =
  visibleOptions positionals optionals.
Proof.
  unfold visibleOptions, choice_strings. do 2 f_equal.
  induction positionals as [|a pos IH]; simpl; [reflexivity|].
  rewrite IH. f_equal. destruct (choices a); simpl; try reflexivity.
  apply keys_map.
Qed.

Lemma children_lines_map {P} (f : P -> walker) (prefix : string)
    (positionals : list (Action P)) :
  children_lines (fun w => w) prefix (map (Action_map f) positionals) =
  children_lines f prefix positionals.
Proof.
  unfold children_lines. rewrite dispatch_map.
  induction (dispatch positionals) as [|e l IH]; simpl; [reflexivity|].
  now rewrite IH.
Qed.

Lemma no_markers_map {P R} (f : P -> R) (positionals : list (Action P)) :
  forallb no_markers (map (Action_map f) positionals) =
  forallb no_markers positionals.
Proof.
  induction positionals as [|a pos IH]; simpl; [reflexivity|].
  rewrite IH. f_equal. unfold no_markers. simpl. now destruct (choices a).
Qed.

Lemma marker_free_inv (positionals : list (Action ArgumentParser))
    (optionals : list OptionalAction) :
  marker_free (Parser positionals optionals) = true ->
  forallb no_markers positionals = true
  /\ Forall (children_all (fun c => marker_free c = true)) positionals.
Proof.
  simpl. intros H. rewrite forallb_forall in H. split.
  - apply forallb_forall. intros a Ha. specialize (H a Ha).
    unfold no_markers. now destruct (choices a).
  - apply Forall_forall. intros a Ha. specialize (H a Ha).
    unfold children_all. destruct (choices a) as [|d|l]; try exact I.
    apply Forall_forall. intros e He. rewrite forallb_forall in H.
    now apply H.
Qed.

Lemma Forall_children_and {P} (Q1 Q2 : P -> Prop)
    (positionals : list (Action P)) :
  Forall (children_all Q1) positionals ->
  Forall (children_all Q2) positionals ->
  Forall (children_all (fun c => Q1 c /\ Q2 c)) positionals.
Proof.
  induction 1 as [|a pos H1 _ IH]; intros H2; [constructor|].
  inversion H2 as [|? ? H2a H2p]; subst. constructor; [|now apply IH].
  unfold children_all in *. destruct (choices a) as [|d|l]; try exact I.
  clear - H1 H2a. induction H1 as [|e d He _ IHd]; [constructor|].
  inversion H2a; subst. constructor; [now split | now apply IHd].
Qed.

Lemma Forall_children_impl {P} (Q1 Q2 : P -> Prop)
    (positionals : list (Action P)) :
  (forall c, Q1 c -> Q2 c) ->
  Forall (children_all Q1) positionals ->
  Forall (children_all Q2) positionals.
Proof.
  intros HQ. apply Forall_impl. intros a. unfold children_all.
  destruct (choices a); auto. apply Forall_impl. intros e. apply HQ.
Qed.

(** What the closing block prints is the marker of the strategy that
    the classifier gives for the plain names. *)
Lemma str_in_filter (f : string -> bool) (x : string) (l : list string) :
  f x = true -> Py.str_in x (filter f l) = Py.str_in x l.
Proof.
  intros Hx. unfold Py.str_in. induction l as [|y l IH]; simpl;
    [reflexivity|].
  destruct (f y) eqn:Ey; simpl; [now rewrite IH|].
  rewrite IH. destruct (String.eqb_spec x y) as [->|_]; [congruence|].
  reflexivity.
Qed.

Lemma truthy_filter_completable (names : list string) :
  Py.truthy_list (filter (fun d => negb (uncompletable d)) names) =
  negb (forallb uncompletable names).
Proof.
  induction names as [|n names IH]; simpl; [reflexivity|].
  destruct (uncompletable n); simpl; [exact IH | reflexivity].
Qed.

Lemma existsb_marker_names (names : list string) :
  existsb (fun n => Py.str_in n ["target"; "targets"]) names =
  Py.str_in "targets" names || Py.str_in "target" names.
Proof.
  unfold Py.str_in. induction names as [|n names IH]; cbn [existsb] in *;
    [reflexivity|].
  rewrite IH, orb_false_r.
  rewrite (String.eqb_sym n "target"), (String.eqb_sym n "targets").
  destruct ("targets" =? n)%string, ("target" =? n)%string,
    (existsb (String.eqb "targets") names),
    (existsb (String.eqb "target") names); reflexivity.
Qed.

Lemma print_compgen_classify (prefix : string) (names : list string) :
  written (print_compgen prefix
             (filter (fun d => negb (uncompletable d)) names)) =
  strategy_lines prefix (classify names).
Proof.
  unfold print_compgen, classify. rewrite truthy_filter_completable.
  destruct (forallb uncompletable names); cbn [negb]; [reflexivity|].
  rewrite existsb_marker_names. unfold intersection. cbn [filter].
  rewrite !str_in_filter by reflexivity.
  destruct (Py.str_in "targets" names), (Py.str_in "target" names);
    reflexivity.
Qed.

(** The run of the traversal on a tree without markers: it returns,
    and prints the options line, then the lines of the children in the
    order of the loops, then the marker of the strategy. *)
Lemma print_bash_commands_run (p : ArgumentParser) :
  marker_free p = true -> runs_to_end p.
Proof.
  induction p as [pos opt IH] using ArgumentParser_tree_ind.
  intros Hm prefix fd. apply marker_free_inv in Hm. destruct Hm as [Hm Hc].
  cbn [print_bash_commands].
  rewrite step_returns.
  - rewrite visibleOptions_map, children_lines_map, completable_dests_map,
      dispatch_map, map_map. unfold completable_dests.
    rewrite print_compgen_classify. reflexivity.
  - apply Forall_children_map.
    apply (Forall_children_impl
             (fun c => (marker_free c = true -> runs_to_end c)
                       /\ marker_free c = true));
      [|apply Forall_children_and; [exact IH | exact Hc]].
    intros c [Hrun Hfree]. split.
    + apply print_bash_commands_appends.
    + intros prefix'. unfold outcome. rewrite (Hrun Hfree). now eexists.
  - now rewrite no_markers_map.
Qed.

End Returns.

(** ** The order of the lines *)

Section Order.

Lemma leb_ltb (a b : string) : String.ltb b a = false <-> str_le a b.
Proof.
  unfold str_le, String.ltb, String.leb.
  rewrite (String.compare_antisym b a).
  destruct (String.compare a b); simpl; split; congruence.
Qed.

Lemma sorted_keys_sorted (l : list string) :
  StronglySorted str_le (Py.sorted String.ltb l).
Proof.
  pose proof (sorted_sorted String.ltb ltb_irrefl ltb_trans ltb_total l) as H.
  induction H as [|x s Hs IH Hx]; constructor; [exact IH|].
  revert Hx. apply Forall_impl. intros y. apply leb_ltb.
Qed.



(** The root alone is visited at [ROOT_PREFIX]. *)
Lemma visited_under (root : ArgumentParser) :
  forall depth p prefix, visited root depth p prefix ->
  under ROOT_PREFIX prefix
  /\ (String.eqb prefix ROOT_PREFIX = match depth with 0 => true | S _ => false end).
Proof.
  induction 1 as [|depth p prefix cmd child _ [IH _] Hin].
  - split; [apply under_refl | reflexivity].
  - split; [|now apply child_prefix_not_root].
    right. destruct IH as [->|[rest ->]].
    + apply (below_child _ cmd). apply under_refl.
    + exists (rest +++ "_" +++ Py.replace "-" "_" cmd).
      unfold child_prefix. now rewrite !append_assoc.
Qed.

End Order.

(** ** The classifier and the denylist *)

Section Classifier.

Lemma Forall_children_intro {P} (Q : P -> Prop)
    (positionals : list (Action P)) :
  (forall c, Q c) -> Forall (children_all Q) positionals.
Proof.
  intros HQ. apply Forall_forall. intros a _. unfold children_all.
  destruct (choices a); auto. apply Forall_forall. intros e _. apply HQ.
Qed.

Lemma classify_targets (names : list string) :
  In "targets" names -> classify names = PROJECT_FILE.
Proof.
  intros Hin. unfold classify.
  assert (E1 : forallb uncompletable names = false).
  { destruct (forallb uncompletable names) eqn:E; [|reflexivity].
    rewrite forallb_forall in E. now specialize (E _ Hin). }
  assert (E2 : existsb (fun n => Py.str_in n ["target"; "targets"]) names
               = true).
  { apply existsb_exists. exists "targets". now split. }
  now rewrite E1, E2.
Qed.

Lemma uncompletable_spec (n : string) :
  uncompletable n = true <->
  exists i a b, In i UNCOMPLETABLE_POSITIONALS /\ n = a +++ i +++ b.
Proof.
  unfold uncompletable. rewrite existsb_exists. split.
  - intros [i [Hi Hc]]. apply contains_spec in Hc.
    destruct Hc as [a [b E]]. now exists i, a, b.
  - intros [i [a [b [Hi E]]]]. exists i. split; [exact Hi|].
    apply contains_spec. now exists a, b.
Qed.

Lemma completable_dests_in {P} (positionals : list (Action P)) (n : string) :
  In n (completable_dests positionals) <->
  In n (plain_names positionals) /\ uncompletable n = false.
Proof.
  unfold completable_dests. rewrite filter_In, negb_true_iff. reflexivity.
Qed.

Lemma completable_dests_nil {P} (positionals : list (Action P)) :
  (forall n, In n (plain_names positionals) -> uncompletable n = true) ->
  completable_dests positionals = [].
Proof.
  intros H. destruct (completable_dests positionals) as [|n l] eqn:E;
    [reflexivity|].
  assert (Hn : In n (completable_dests positionals))
    by (rewrite E; now left).
  apply completable_dests_in in Hn. destruct Hn as [Hn Hu].
  rewrite (H n Hn) in Hu. discriminate Hu.
Qed.

Lemma visit_positional_emits_below (prefix : string) (sub : Action walker)
    (st : list string * list string) :
  children_all walker_emits_ok sub ->
  emits (line_below prefix) (visit_positional prefix sub st).
Proof.
  intros H. destruct st as [commands dests].
  unfold visit_positional, visit_choices, children_all in *.
  destruct (choices sub) as [|d|l]; simpl.
  - destruct (negb _); apply emits_ret.
  - destruct (Py.truthy_list d).
    + apply emits_bind; [|intros; apply emits_ret].
      apply emits_for_each. intros cmd _ s. unfold visit_command.
      destruct (Py.dict_get d cmd) as [child|] eqn:E; [|apply emits_raise].
      apply emits_bind; [|intros; apply emits_ret].
      apply (emits_weaken (line_ok (child_prefix prefix cmd))).
      * intros l [Hl _]. now apply (below_child prefix cmd).
      * apply (child_in d walker_emits_ok cmd child H E).
    + destruct (negb _); apply emits_ret.
  - destruct (Py.truthy_list l).
    + apply emits_bind; [|intros; apply emits_ret].
      apply emits_for_each. intros; apply emits_raise.
    + destruct (negb _); apply emits_ret.
Qed.

(** When no plain name is completable, the node prints no strategy
    line; the lines of its descendants name other prefixes. *)
Lemma no_strategy_line (p : ArgumentParser) (prefix : string) :
  completable_dests (_get_positional_actions p) = [] ->
  forall fn, ~ In (CompgenLine prefix fn)
                  (written (print_bash_commands p prefix)).
Proof.
  destruct p as [pos opt]. cbn [_get_positional_actions].
  intros Hd fn. cbn [print_bash_commands]. unfold print_bash_commands_step.
  set (pos' := map (Action_map print_bash_commands) pos).
  assert (Ha : Forall (children_all walker_appends) pos').
  { apply Forall_children_map, Forall_children_intro.
    apply print_bash_commands_appends. }
  assert (He : Forall (children_all walker_emits_ok) pos').
  { apply Forall_children_map, Forall_children_intro.
    apply print_bash_commands_emits. }
  rewrite written_bind;
    [|apply print_options_appends
     |intros _; apply appends_bind;
      [now apply loop_appends
      |intros st; apply appends_bind;
       [apply print_compgen_appends | intros; apply appends_ret]]].
  rewrite in_app_iff. intros [Hin|Hin].
  - unfold print_options, written in Hin.
    destruct (String.eqb prefix ROOT_PREFIX); [destruct Hin|].
    rewrite strs_node_opts in Hin. simpl in Hin.
    destruct Hin as [Hin|[]]. discriminate Hin.
  - destruct (outcome (print_options prefix pos' opt)); [destruct Hin|].
    rewrite written_bind in Hin;
      [|now apply loop_appends
       |intros st; apply appends_bind;
        [apply print_compgen_appends | intros; apply appends_ret]].
    apply in_app_iff in Hin. destruct Hin as [Hin|Hin].
    + assert (Hb : Forall (line_below prefix)
                     (written (for_each pos' (visit_positional prefix)
                                 ([], [])))).
      { apply emits_written, emits_for_each. intros sub Hsub s.
        apply visit_positional_emits_below.
        now apply (proj1 (Forall_forall _ _) He). }
      apply (proj1 (Forall_forall _ _) Hb) in Hin.
      now apply below_neq in Hin.
    + destruct (outcome (for_each pos' (visit_positional prefix) ([], [])))
        as [e|[c d]] eqn:Eo; [destruct Hin|].
      unfold outcome in Eo.
      pose proof (loop_dests prefix pos' [] [] []
                    (fst (for_each pos' (visit_positional prefix)
                            ([], []) []))
                    c d) as Hl.
      rewrite <- Eo, <- surjective_pairing in Hl. specialize (Hl eq_refl).
      unfold pos' in Hl. rewrite completable_dests_map, Hd in Hl.
      subst d. destruct Hin.
Qed.

End Classifier.

(** C3. The classification of the plain-positional names of a node is
    one of [NONE], [GENERIC_PATH] and [PROJECT_FILE], it is the strategy
    whose marker the closing block of the traversal prints, and a set of
    names that contains [targets] is classified [PROJECT_FILE] whatever
    else it contains. *)
Theorem classifier_total :
  (forall names,
      classify names = NONE \/ classify names = GENERIC_PATH
      \/ classify names = PROJECT_FILE)
  /\ (forall (p : ArgumentParser) (prefix : string),
         written (print_compgen prefix
                    (completable_dests (_get_positional_actions p))) =
         strategy_lines prefix
           (classify (plain_names (_get_positional_actions p))))
  /\ (forall names, In "targets" names -> classify names = PROJECT_FILE).
Proof.
  split; [|split].
  - intros names. destruct (classify names); auto.
  - intros p prefix. apply print_compgen_classify.
  - apply classify_targets.
Qed.

Lemma classifier_total_witness :
  In "targets" ["url"; "targets"; "path"]
  /\ classify ["url"; "targets"; "path"] = PROJECT_FILE.
Proof.
  assert (H : In "targets" ["url"; "targets"; "path"])
    by (right; left; reflexivity).
  split; [exact H|].
  exact (proj2 (proj2 classifier_total) ["url"; "targets"; "path"] H).
Defined.

(** C4. A plain positional whose name has a denylist entry as a
    substring, compared character by character, is left out of the names
    that are classified; when every plain positional of a node matches
    the denylist, as when the only one is named [url], the traversal
    prints no strategy line for that node. *)
Theorem denylist_excludes (p : ArgumentParser) (prefix : string) :
  (forall n, uncompletable n = true <->
             exists i a b, In i UNCOMPLETABLE_POSITIONALS /\ n = a +++ i +++ b)
  /\ (forall n, In n (completable_dests (_get_positional_actions p)) <->
                In n (plain_names (_get_positional_actions p))
                /\ uncompletable n = false)
  /\ ((forall n, In n (plain_names (_get_positional_actions p)) ->
                 uncompletable n = true) ->
      classify (plain_names (_get_positional_actions p)) = NONE
      /\ forall fn, ~ In (CompgenLine prefix fn)
                         (written (print_bash_commands p prefix)))
  /\ (plain_names (_get_positional_actions p) = ["url"] ->
      forall fn, ~ In (CompgenLine prefix fn)
                      (written (print_bash_commands p prefix))).
Proof.
  split; [exact uncompletable_spec|].
  split; [intros n; apply completable_dests_in|].
  split.
  - intros H. split.
    + unfold classify.
      assert (E : forallb uncompletable
                    (plain_names (_get_positional_actions p)) = true)
        by (apply forallb_forall; exact H).
      now rewrite E.
    + apply no_strategy_line. now apply completable_dests_nil.
  - intros E. apply no_strategy_line. apply completable_dests_nil.
    rewrite E. intros n [<-|[]]. reflexivity.
Qed.

Lemma denylist_excludes_witness :
  plain_names (_get_positional_actions scenario_C) = ["url"]
  /\ (forall fn, ~ In (CompgenLine "_dvc_get" fn)
                      (written (print_bash_commands scenario_C "_dvc_get")))
  /\ written (print_bash_commands scenario_C "_dvc_get") =
     [OptionsLine "_dvc_get" ["-o"; "--out"]].
Proof.
  split; [reflexivity|]. split; [|reflexivity].
  exact (proj2 (proj2 (proj2 (denylist_excludes scenario_C "_dvc_get")))
           eq_refl).
Defined.

(** ** Scenario A *)

(** C5. For the root with the single subcommand [add], with option
    strings [-f] and [--force] and one plain positional [target], the
    script holds the options line of [add] with the value [-f --force]
    and the strategy line of [add] naming the project-file completer. *)
Theorem scenario_A_output :
  print_bash_commands scenario_A ROOT_PREFIX [] =
    ([OptionsLine "_dvc_add" ["-f"; "--force"];
      CompgenLine "_dvc_add" compgen_DVCFiles],
     inr ["add"])
  /\ exists text,
       complete scenario_A "bash" = ([text], inr (text +++ Py.nl))
       /\ Py.contains
            ("_dvc_add='-f --force'" +++ Py.nl
             +++ "_dvc_add_COMPGEN=_dvc_compgen_DVCFiles" +++ Py.nl)
            text = true.
Proof.
  split; [reflexivity|].
  exists (script ["add"]
            (getvalue render
               [OptionsLine "_dvc_add" ["-f"; "--force"];
                CompgenLine "_dvc_add" compgen_DVCFiles])).
  split; vm_compute; reflexivity.
Qed.

(** ** Options and the global options *)

(** C6. No options line printed by the traversal of any tree, at any
    node, holds a string of [GLOBAL_OPTIONS]; the list printed for a
    node is [visibleOptions], which holds none either. *)
Theorem options_never_global (p : ArgumentParser) (prefix : string) :
  Forall (fun l =>
            Forall (fun o => Py.str_in o GLOBAL_OPTIONS = false) (line_opts l))
         (written (print_bash_commands p prefix))
  /\ Forall (fun o => Py.str_in o GLOBAL_OPTIONS = false)
            (visibleOptions (_get_positional_actions p)
                            (_get_optional_actions p)).
Proof.
  assert (H : forall o, ~ In o GLOBAL_OPTIONS ->
                        Py.str_in o GLOBAL_OPTIONS = false).
  { intros o Hn. unfold Py.str_in.
    destruct (existsb (String.eqb o) GLOBAL_OPTIONS) eqn:E; [|reflexivity].
    apply existsb_exists in E. destruct E as [g [Hg E]].
    apply String.eqb_eq in E. now subst g. }
  split.
  - pose proof (emits_written _ _ (print_bash_commands_emits p prefix)) as He.
    revert He. apply Forall_impl. intros l [_ Hl].
    apply Forall_forall. intros o Ho. now apply H, Hl.
  - apply Forall_forall. intros o Ho.
    now apply H, (visibleOptions_not_global _ _ o Ho).
Qed.

(** ** Determinism and the entry point *)

Section EntryPoint.

Lemma print_bash_appends (p : ArgumentParser) : appends (print_bash p).
Proof.
  intros fd. unfold print_bash, written, outcome.
  destruct (print_bash_commands p ROOT_PREFIX []) as [bash [e|commands]].
  - simpl. now rewrite app_nil_r.
  - reflexivity.
Qed.

Lemma marker_visit_raises (prefix : string) (sub : Action walker)
    (l : list Choice) (st : list string * list string)
    (fd : StringIO line) :
  choices sub = Markers l -> Py.truthy_list l = true ->
  visit_positional prefix sub st fd = (fd, inl TypeError).
Proof.
  intros Hc Ht. destruct st as [commands dests].
  unfold visit_positional, visit_choices. rewrite Hc. cbn [choices_truthy].
  rewrite Ht. unfold bind.
  pose proof (sorted_nonempty (fun a _ => Choice_lt a true) l Ht) as Hs.
  destruct (Py.sorted (fun a _ => Choice_lt a true) l) as [|c s];
    [discriminate Hs | reflexivity].
Qed.

Lemma loop_raises (prefix : string) (positionals : list (Action walker)) :
  Forall (children_all walker_raises_TypeError) positionals ->
  (exists sub l, In sub positionals /\ choices sub = Markers l
                 /\ Py.truthy_list l = true) ->
  forall st fd,
    snd (for_each positionals (visit_positional prefix) st fd)
    = inl TypeError.
Proof.
  induction 1 as [|a pos Ha _ IH]; intros [sub [l [Hin [Hc Ht]]]] st fd;
    [destruct Hin|].
  cbn [for_each]. unfold bind.
  destruct (visit_positional prefix a st fd) as [fd1 [e|st1]] eqn:E.
  - pose proof (visit_positional_raises prefix a st Ha fd e) as He.
    rewrite E in He. now rewrite <- (He eq_refl).
  - destruct Hin as [->|Hin].
    + rewrite (marker_visit_raises prefix sub l st fd Hc Ht) in E.
      discriminate E.
    + apply IH. now exists sub, l.
Qed.

(** A node with a positional whose choices are a non-empty list of
    markers makes the traversal raise [TypeError]. *)
Lemma markers_raise (positionals : list (Action ArgumentParser))
    (optionals : list OptionalAction) (sub : Action ArgumentParser)
    (l : list Choice) (prefix : string) (fd : StringIO line) :
  In sub positionals -> choices sub = Markers l -> l <> [] ->
  snd (print_bash_commands (Parser positionals optionals) prefix fd)
  = inl TypeError.
Proof.
  intros Hin Hc Hl. cbn [print_bash_commands].
  unfold print_bash_commands_step. unfold bind at 1.
  pose proof (print_options_outcome prefix
                (map (Action_map print_bash_commands) positionals)
                optionals fd) as Ho.
  destruct (print_options prefix
              (map (Action_map print_bash_commands) positionals)
              optionals fd) as [fd1 r].
  simpl in Ho. subst r. unfold bind at 1.
  pose proof (loop_raises prefix
                (map (Action_map print_bash_commands) positionals)) as Hr.
  specialize (Hr (Forall_children_map _ _ _
                    (Forall_children_intro _ _ print_bash_commands_raises))).
  assert (Hex : exists sub' l',
             In sub' (map (Action_map print_bash_commands) positionals)
             /\ choices sub' = Markers l' /\ Py.truthy_list l' = true).
  { exists (Action_map print_bash_commands sub), l. repeat split.
    - now apply in_map.
    - simpl. now rewrite Hc.
    - destruct l; [contradiction | reflexivity]. }
  specialize (Hr Hex ([], []) fd1).
  destruct (for_each (map (Action_map print_bash_commands) positionals)
              (visit_positional prefix) ([], []) fd1) as [fd2 [e|st]];
    simpl in Hr; [injection Hr as ->; reflexivity | discriminate Hr].
Qed.

End EntryPoint.

(** C8. Generation is a function of the tree alone: the traversal and
    [print_bash] append to their sink one text and end in one way,
    whatever the sink held before, so a second run, on the sink left by
    the first or on a fresh one, prints the same text again; and
    [complete] returns that text. *)
Theorem generation_deterministic (T : ArgumentParser) :
  (exists lines r,
      forall fd, print_bash_commands T ROOT_PREFIX fd = (fd ++ lines, r))
  /\ exists chunks r,
       (forall fd, print_bash T fd = (fd ++ chunks, r))
       /\ (forall fd, (print_bash T ;; print_bash T) fd =
                      match r with
                      | inl e => (fd ++ chunks, inl e)
                      | inr _ => (fd ++ chunks ++ chunks, r)
                      end)
       /\ complete T "bash" =
          (chunks,
           match r with
           | inl e => inl e
           | inr _ => inr (getvalue (fun s => s) chunks)
           end).
Proof.
  split.
  - exists (written (print_bash_commands T ROOT_PREFIX)),
           (outcome (print_bash_commands T ROOT_PREFIX)).
    apply print_bash_commands_appends.
  - exists (written (print_bash T)), (outcome (print_bash T)).
    pose proof (print_bash_appends T) as Ha. split; [exact Ha|]. split.
    + intros fd. rewrite (run_bind _ _ Ha (fun _ => Ha)).
      destruct (outcome (print_bash T)) as [e|[]]; reflexivity.
    + unfold complete. cbn [String.eqb Ascii.eqb Bool.eqb].
      rewrite (Ha []). cbn [app].
      destruct (outcome (print_bash T)); reflexivity.
Qed.

(** C9. With a shell other than [bash], [complete] raises
    [NotImplementedError] and has printed nothing to its sink. *)
Theorem unsupported_shell (parser : ArgumentParser) (shell : string) :
  shell <> "bash" ->
  complete parser shell = ([], inl NotImplementedError).
Proof.
  intros H. unfold complete. apply String.eqb_neq in H. now rewrite H.
Qed.

Lemma unsupported_shell_witness :
  "zsh" <> "bash"
  /\ complete scenario_A "zsh" = ([], inl NotImplementedError).
Proof.
  assert (H : "zsh" <> "bash") by discriminate.
  split; [exact H | exact (unsupported_shell scenario_A "zsh" H)].
Defined.

(** ** Identifiers *)

Section Identifiers.

Lemma nodupb_NoDup (l : list string) : nodupb l = true -> NoDup l.
Proof.
  induction l as [|x l IH]; simpl; [constructor|].
  rewrite andb_true_iff, negb_true_iff. intros [Hx Hl].
  constructor; [|now apply IH].
  intros Hin. unfold Py.str_in in Hx.
  assert (E : existsb (String.eqb x) l = true).
  { apply existsb_exists. exists x. split; [exact Hin | apply String.eqb_refl]. }
  congruence.
Qed.

Lemma replace_plain (s : string) :
  has_char "-" s = false -> Py.replace "-" "_" s = s.
Proof.
  induction s as [|c s IH]; simpl; [reflexivity|].
  rewrite orb_false_iff. intros [Hc Hs]. now rewrite Hc, IH.
Qed.

(** A name without underscore is read back from the front of an
    identifier. *)
Lemma name_unique (c1 c2 r1 r2 : string) :
  has_char "_" c1 = false -> has_char "_" c2 = false ->
  path_tail r1 -> path_tail r2 ->
  c1 +++ r1 = c2 +++ r2 -> c1 = c2.
Proof.
  revert c2. induction c1 as [|x c1 IH]; intros [|y c2]; simpl;
    intros H1 H2 T1 T2 E.
  - reflexivity.
  - destruct T1 as [->|[r' ->]]; [discriminate E|].
    simpl in E. injection E as <- _. discriminate H2.
  - destruct T2 as [->|[r' ->]]; [discriminate E|].
    simpl in E. injection E as -> _. discriminate H1.
  - injection E as -> E. f_equal.
    apply orb_false_iff in H1. apply orb_false_iff in H2.
    now apply (IH c2 (proj2 H1) (proj2 H2) T1 T2).
Qed.

Lemma under_child_tail (prefix cmd x : string) :
  has_char "-" cmd = false ->
  under (child_prefix prefix cmd) x ->
  exists r, path_tail r /\ x = prefix +++ "_" +++ cmd +++ r.
Proof.
  intros Hc. unfold child_prefix. rewrite (replace_plain cmd Hc).
  intros [->|[rest ->]].
  - exists EmptyString. split; [now left|]. now rewrite append_nil_r.
  - exists ("_" +++ rest). split; [right; now exists rest|].
    now rewrite !append_assoc.
Qed.

Lemma identifiers_app (l l' : list line) :
  identifiers (l ++ l') = identifiers l ++ identifiers l'.
Proof. apply flat_map_app. Qed.

Lemma identifiers_flat_map {A} (f : A -> list line) (l : list A) :
  identifiers (flat_map f l) = flat_map (fun a => identifiers (f a)) l.
Proof.
  induction l as [|a l IH]; simpl; [reflexivity|].
  now rewrite identifiers_app, IH.
Qed.

Lemma identifiers_strategy (prefix : string) (s : strategy) :
  identifiers (strategy_lines prefix s) = [].
Proof. now destruct s. Qed.

Lemma identifiers_under (p : ArgumentParser) (prefix x : string) :
  In x (identifiers (written (print_bash_commands p prefix))) ->
  under prefix x.
Proof.
  pose proof (emits_written _ _ (print_bash_commands_emits p prefix)) as H.
  unfold identifiers. rewrite in_flat_map. intros [l [Hl Hx]].
  apply (proj1 (Forall_forall _ _) H) in Hl. destruct Hl as [Hu _].
  destruct l as [q o|q fn]; [|destruct Hx].
  destruct Hx as [<-|[]]. exact Hu.
Qed.

Lemma NoDup_flat_map {A B} (key : A -> string) (f : A -> list B)
    (l : list A) :
  NoDup (map key l) ->
  (forall a, In a l -> NoDup (f a)) ->
  (forall a b x, In a l -> In b l -> In x (f a) -> In x (f b) ->
                 key a = key b) ->
  NoDup (flat_map f l).
Proof.
  induction l as [|a l IH]; simpl; intros Hk Hf Hd; [constructor|].
  inversion Hk as [|? ? Hna Hkl]; subst.
  apply NoDup_app.
  - apply Hf. now left.
  - apply IH; [exact Hkl | intros b Hb; apply Hf; now right|].
    intros b c x Hb Hc. apply Hd; now right.
  - intros x Hxa Hxl. apply in_flat_map in Hxl. destruct Hxl as [b [Hb Hxb]].
    apply Hna. rewrite (Hd a b x (or_introl eq_refl) (or_intror Hb) Hxa Hxb).
    now apply in_map.
Qed.

(** Where the children reached come from. *)
Lemma dispatch_in {P} (positionals : list (Action P)) (cmd : string)
    (child : P) :
  In (cmd, child) (dispatch positionals) ->
  exists sub d, In sub positionals /\ choices sub = Subparsers d
                /\ In (cmd, child) d.
Proof.
  unfold dispatch. rewrite in_flat_map. intros [sub [Hsub Hin]].
  unfold dispatched in Hin. destruct (choices sub) as [|d|l] eqn:Ec;
    try destruct Hin.
  exists sub, d. split; [exact Hsub|]. split; [exact Ec|].
  apply in_flat_map in Hin. destruct Hin as [k [_ Hk]].
  destruct (Py.dict_get d k) as [c|] eqn:E; [|destruct Hk].
  destruct Hk as [Hk|[]]. injection Hk as <- <-.
  now apply dict_get_some.
Qed.

Lemma dispatch_names {P} (positionals : list (Action P)) :
  Permutation (map fst (dispatch positionals)) (choice_strings positionals).
Proof.
  unfold dispatch, choice_strings.
  induction positionals as [|a pos IH]; simpl; [constructor|].
  rewrite map_app. apply Permutation_app; [|exact IH].
  rewrite map_fst_dispatched. destruct (choices a); try constructor.
  apply sorted_perm.
Qed.

End Identifiers.

(** ** The insertion order of the dicts *)

Section InsertionOrder.

Lemma Permutation_filter {A} (f : A -> bool) (l l' : list A) :
  Permutation l l' -> Permutation (filter f l) (filter f l').
Proof.
  induction 1 as [|x l l' _ IH|x y l|l l' l'' _ IH1 _ IH2]; simpl.
  - constructor.
  - destruct (f x); [now constructor | exact IH].
  - destruct (f x), (f y); try reflexivity. apply perm_swap.
  - now transitivity (filter f l').
Qed.

Lemma forallb_perm {A} (f : A -> bool) (l l' : list A) :
  Permutation l l' -> forallb f l = forallb f l'.
Proof.
  induction 1 as [|x l l' _ IH|x y l|l l' l'' _ IH1 _ IH2]; simpl.
  - reflexivity.
  - now rewrite IH.
  - now destruct (f x), (f y).
  - now rewrite IH1.
Qed.

Lemma keys_insert {V} (e : string * V) (l : list (string * V)) :
  Py.keys (Py.insert entry_lt e l) = Py.insert String.ltb (fst e) (Py.keys l).
Proof.
  induction l as [|e' l IH]; simpl; [reflexivity|].
  unfold entry_lt at 1. destruct (String.ltb (fst e') (fst e)); simpl;
    [now rewrite <- IH | reflexivity].
Qed.

Lemma keys_sorted {V} (l : list (string * V)) :
  Py.keys (Py.sorted entry_lt l) = Py.sorted String.ltb (Py.keys l).
Proof.
  induction l as [|e l IH]; simpl; [reflexivity|].
  now rewrite keys_insert, IH.
Qed.

Lemma NoDup_keys_in {V} (d : list (string * V)) (k : string) (v : V) :
  NoDup (Py.keys d) -> In (k, v) d -> Py.dict_get d k = Some v.
Proof.
  induction d as [|[k' v'] d IH]; simpl; intros Hn Hin; [destruct Hin|].
  inversion Hn as [|? ? Hk Hd]; subst.
  destruct Hin as [E|Hin].
  - injection E as -> ->. now rewrite String.eqb_refl.
  - destruct (String.eqb_spec k' k) as [->|_]; [|now apply IH].
    exfalso. apply Hk. now apply (in_map fst d (k, v)).
Qed.

(** A dict read at a key gives one value in every insertion order. *)
Lemma dict_get_perm {V} (d d' : list (string * V)) (k : string) :
  NoDup (Py.keys d) -> Permutation d d' ->
  Py.dict_get d k = Py.dict_get d' k.
Proof.
  intros Hn Hp.
  assert (Hn' : NoDup (Py.keys d')).
  { apply (Permutation_NoDup (l := Py.keys d)); [|exact Hn].
    now apply Permutation_map. }
  destruct (Py.dict_get d k) as [v|] eqn:E.
  - symmetry. apply NoDup_keys_in; [exact Hn'|].
    apply (Permutation_in _ Hp). now apply dict_get_some.
  - destruct (Py.dict_get d' k) as [v'|] eqn:E'; [|reflexivity].
    apply dict_get_some in E'. apply (Permutation_in _ (Permutation_sym Hp)) in E'.
    rewrite (NoDup_keys_in d k v' Hn E') in E. discriminate E.
Qed.

Lemma line_sim_refl (l : line) : line_sim l l.
Proof. destruct l; simpl; split; reflexivity. Qed.

Lemma line_sim_sym (l1 l2 : line) : line_sim l1 l2 -> line_sim l2 l1.
Proof.
  destruct l1, l2; simpl; try contradiction; intros [-> H]; split;
    try reflexivity; now symmetry.
Qed.

Lemma line_sim_trans (l1 l2 l3 : line) :
  line_sim l1 l2 -> line_sim l2 l3 -> line_sim l1 l3.
Proof.
  destruct l1, l2, l3; simpl; try contradiction;
    intros [-> H1] [-> H2]; split; try reflexivity.
  - now transitivity opts0.
  - now transitivity fn0.
Qed.

Lemma Forall2_refl_on {A} (R : A -> A -> Prop) (l : list A) :
  (forall a, R a a) -> Forall2 R l l.
Proof. intros H. induction l; constructor; auto. Qed.

Lemma Forall2_sym_on {A} (R : A -> A -> Prop) (l l' : list A) :
  (forall a b, R a b -> R b a) -> Forall2 R l l' -> Forall2 R l' l.
Proof. intros H. induction 1; constructor; auto. Qed.

Lemma Forall2_trans_on {A} (R : A -> A -> Prop) (l1 l2 l3 : list A) :
  (forall a b c, R a b -> R b c -> R a c) ->
  Forall2 R l1 l2 -> Forall2 R l2 l3 -> Forall2 R l1 l3.
Proof.
  intros H H12. revert l3. induction H12 as [|a b l1 l2 Hab _ IH];
    intros l3 H23; inversion H23; subst; constructor; eauto.
Qed.

Lemma Forall2_flat_map {A B} (R : B -> B -> Prop) (f g : A -> list B)
    (l : list A) :
  (forall a, In a l -> Forall2 R (f a) (g a)) ->
  Forall2 R (flat_map f l) (flat_map g l).
Proof.
  induction l as [|a l IH]; simpl; intros H; [constructor|].
  apply Forall2_app; [apply H; now left|].
  apply IH. intros b Hb. apply H. now right.
Qed.

Lemma flat_map_of_map {A B C} (f : B -> list C) (g : A -> B) (l : list A) :
  flat_map f (map g l) = flat_map (fun a => f (g a)) l.
Proof.
  induction l as [|a l IH]; simpl; [reflexivity | now rewrite IH].
Qed.

Lemma dicts_valid_inv (positionals : list (Action ArgumentParser))
    (optionals : list OptionalAction) :
  dicts_valid (Parser positionals optionals) = true ->
  (forall sub d, In sub positionals -> choices sub = Subparsers d ->
                 NoDup (Py.keys d))
  /\ Forall (children_all (fun c => dicts_valid c = true)) positionals.
Proof.
  simpl. intros H. rewrite forallb_forall in H. split.
  - intros sub d Hsub Hc. specialize (H sub Hsub). rewrite Hc in H.
    apply andb_true_iff in H. now apply nodupb_NoDup.
  - apply Forall_forall. intros a Ha. specialize (H a Ha).
    unfold children_all. destruct (choices a) as [|d|l]; try exact I.
    apply andb_true_iff in H. destruct H as [_ H].
    apply Forall_forall. intros e He. rewrite forallb_forall in H.
    now apply H.
Qed.

(** The canonical tree has markers where the tree has. *)
Lemma marker_free_canonical (p : ArgumentParser) :
  marker_free (canonical p) = marker_free p.
Proof.
  induction p as [pos opt IH] using ArgumentParser_tree_ind. simpl.
  induction IH as [|a pos Ha _ IHpos]; simpl; [reflexivity|].
  rewrite IHpos. f_equal. unfold children_all in Ha.
  destruct (choices a) as [|d|l]; try reflexivity.
  rewrite (forallb_perm _ _ _ (sorted_perm entry_lt _)).
  clear - Ha. induction Ha as [|e d He _ IHd]; simpl; [reflexivity|].
  now rewrite He, IHd.
Qed.

Lemma canonical_positionals (positionals : list (Action ArgumentParser))
    (optionals : list OptionalAction) :
  _get_positional_actions (canonical (Parser positionals optionals)) =
  map (fun a =>
         mkAction (dest a)
           match choices a with
           | NoChoices => NoChoices
           | Subparsers d =>
               Subparsers
                 (Py.sorted entry_lt
                    (map (fun e => (fst e, canonical (snd e))) d))
           | Markers l => Markers l
           end) positionals.
Proof. reflexivity. Qed.

Lemma canonical_plain_names (p : ArgumentParser) :
  plain_names (_get_positional_actions (canonical p)) =
  plain_names (_get_positional_actions p).
Proof.
  destruct p as [pos opt]. rewrite canonical_positionals.
  cbn [_get_positional_actions]. unfold plain_names, plain.
  induction pos as [|a pos IH]; simpl; [reflexivity|].
  assert (E : choices_truthy
                match choices a with
                | NoChoices => NoChoices
                | Subparsers d =>
                    Subparsers
                      (Py.sorted entry_lt
                         (map (fun e => (fst e, canonical (snd e))) d))
                | Markers l => Markers l
                end = choices_truthy (choices a)).
  { destruct (choices a) as [|d|l]; try reflexivity. simpl.
    destruct d as [|e d]; [reflexivity|].
    now apply (sorted_nonempty entry_lt). }
  rewrite E. destruct (choices_truthy (choices a)); simpl; now rewrite IH.
Qed.

Lemma canonical_choice_strings (p : ArgumentParser) :
  Permutation (choice_strings (_get_positional_actions p))
              (choice_strings (_get_positional_actions (canonical p))).
Proof.
  destruct p as [pos opt]. rewrite canonical_positionals.
  cbn [_get_positional_actions]. unfold choice_strings.
  induction pos as [|a pos IH]; simpl; [constructor|].
  apply Permutation_app; [|exact IH].
  destruct (choices a) as [|d|l]; try constructor.
  rewrite keys_sorted, keys_map. symmetry. apply sorted_perm.
Qed.

Lemma canonical_dispatch (p : ArgumentParser) :
  dicts_valid p = true ->
  dispatch (_get_positional_actions (canonical p)) =
  map (fun e => (fst e, canonical (snd e)))
      (dispatch (_get_positional_actions p)).
Proof.
  destruct p as [pos opt]. intros Hv. apply dicts_valid_inv in Hv.
  destruct Hv as [Hv _]. rewrite canonical_positionals.
  cbn [_get_positional_actions]. unfold dispatch.
  induction pos as [|a pos IH]; simpl; [reflexivity|].
  rewrite map_app, <- IH
    by (intros sub d Hsub; apply Hv; now right).
  f_equal. unfold dispatched. simpl.
  destruct (choices a) as [|d|l] eqn:Ec; try reflexivity.
  rewrite keys_sorted, keys_map,
    (sorted_idem String.ltb ltb_irrefl ltb_trans ltb_total).
  pose proof (Hv a d (or_introl eq_refl) Ec) as Hn.
  induction (Py.sorted String.ltb (Py.keys d)) as [|k ks IHk]; simpl;
    [reflexivity|].
  rewrite map_app, <- IHk. f_equal.
  assert (Eg : Py.dict_get
                 (Py.sorted entry_lt
                    (map (fun e => (fst e, canonical (snd e))) d)) k
               = option_map canonical (Py.dict_get d k)).
  { rewrite <- (dict_get_perm
                  (map (fun e => (fst e, canonical (snd e))) d)
                  (Py.sorted entry_lt
                     (map (fun e => (fst e, canonical (snd e))) d)) k).
    - apply dict_get_map.
    - now rewrite keys_map.
    - symmetry. apply sorted_perm. }
  rewrite Eg. now destruct (Py.dict_get d k).
Qed.

(** The traversal of a tree and of its canonical form print the same
    lines, up to the order of the options, and return the same
    commands. *)
Lemma canonical_traversal (p : ArgumentParser) :
  dicts_valid p = true -> marker_free p = true -> canonical_sim p.
Proof.
  induction p as [pos opt IH] using ArgumentParser_tree_ind.
  intros Hv Hm prefix.
  pose proof (print_bash_commands_run _ Hm prefix []) as Hrun.
  assert (Hm' : marker_free (canonical (Parser pos opt)) = true)
    by now rewrite marker_free_canonical.
  pose proof (print_bash_commands_run _ Hm' prefix []) as Hrun'.
  unfold written, outcome. rewrite Hrun, Hrun'. cbn [fst snd app].
  rewrite canonical_plain_names, (canonical_dispatch _ Hv), map_map.
  split; [|reflexivity].
  apply Forall2_app; [|apply Forall2_app].
  - unfold options_lines. destruct (String.eqb prefix ROOT_PREFIX);
      constructor; [|constructor].
    simpl. split; [reflexivity|]. unfold visibleOptions.
    apply Permutation_filter. apply Permutation_app; [|reflexivity].
    apply (canonical_choice_strings (Parser pos opt)).
  - unfold children_lines. rewrite (canonical_dispatch _ Hv).
    rewrite flat_map_of_map.
    apply Forall2_flat_map. intros [cmd child] Hin. cbn [fst snd].
    apply marker_free_inv in Hm. destruct Hm as [_ Hmc].
    apply dicts_valid_inv in Hv. destruct Hv as [_ Hvc].
    apply dispatch_children in IH, Hmc, Hvc.
    rewrite Forall_forall in IH, Hmc, Hvc.
    apply (IH (cmd, child) Hin (Hvc _ Hin) (Hmc _ Hin)).
  - apply Forall2_refl_on, line_sim_refl.
Qed.

Lemma for_each_Forall2 {W A S} (body : A -> S -> M W S) (l l' : list A) :
  Forall2 (fun a b => forall s fd, body a s fd = body b s fd) l l' ->
  forall s fd, for_each l body s fd = for_each l' body s fd.
Proof.
  induction 1 as [|a b l l' Hab _ IH]; intros s fd; cbn [for_each];
    [reflexivity|].
  unfold bind. rewrite Hab.
  destruct (body b s fd) as [fd' [e|s']]; [reflexivity | apply IH].
Qed.

Lemma action_reordered_map {P} (f : P -> walker) (a b : Action P)
    (prefix : string) :
  action_reordered a b ->
  forall st fd,
    visit_positional prefix (Action_map f a) st fd =
    visit_positional prefix (Action_map f b) st fd.
Proof.
  intros [Hd Hc] [commands dests] fd.
  unfold visit_positional, visit_choices. cbn [Action_map dest choices].
  rewrite Hd.
  destruct (choices a) as [|d1|l1], (choices b) as [|d2|l2];
    try contradiction; cbn [Choices_map choices_truthy].
  - reflexivity.
  - destruct Hc as [Hn Hp].
    assert (Et : Py.truthy_list (map (fun e => (fst e, f (snd e))) d1) =
                 Py.truthy_list (map (fun e => (fst e, f (snd e))) d2)).
    { destruct d1 as [|e1 d1], d2 as [|e2 d2]; try reflexivity.
      - now apply Permutation_nil in Hp.
      - symmetry in Hp. now apply Permutation_nil in Hp. }
    rewrite Et.
    destruct (Py.truthy_list (map (fun e => (fst e, f (snd e))) d2));
      [|reflexivity].
    unfold bind. rewrite !keys_map.
    rewrite (sorted_permutation String.ltb ltb_irrefl ltb_trans ltb_total
               (Py.keys d1) (Py.keys d2))
      by (now apply Permutation_map).
    rewrite (for_each_ext _ _
               (visit_command (map (fun e => (fst e, f (snd e))) d2) prefix));
      [reflexivity|].
    intros cmd _ s fd'. unfold visit_command.
    rewrite (dict_get_perm (map (fun e => (fst e, f (snd e))) d1)
               (map (fun e => (fst e, f (snd e))) d2) cmd);
      [reflexivity | now rewrite keys_map | now apply Permutation_map].
  - now subst l2.
Qed.

(** Reordering the subcommands of the root changes nothing of what the
    traversal does. *)
Lemma root_reordered_traversal (t1 t2 : ArgumentParser) :
  root_reordered t1 t2 ->
  forall fd,
    print_bash_commands t1 ROOT_PREFIX fd =
    print_bash_commands t2 ROOT_PREFIX fd.
Proof.
  destruct t1 as [pos1 opt1], t2 as [pos2 opt2]. intros [Ho Hp] fd.
  cbn [_get_optional_actions _get_positional_actions] in Ho, Hp. subst opt2.
  cbn [print_bash_commands]. unfold print_bash_commands_step, print_options.
  rewrite String.eqb_refl. unfold bind at 1 3. unfold ret at 1 3.
  unfold bind at 1 3.
  rewrite (for_each_Forall2 (visit_positional ROOT_PREFIX)
             (map (Action_map print_bash_commands) pos1)
             (map (Action_map print_bash_commands) pos2));
    [reflexivity|].
  clear - Hp. induction Hp as [|a b l l' Hab _ IH]; simpl; constructor;
    [|exact IH].
  now apply action_reordered_map.
Qed.

End InsertionOrder.

(** ** The shape of the output of every traversal *)

Section Shape.

Lemma lines_of_app {P} (run : P -> walker) (prefix : string)
    (l l' : list (string * P)) :
  lines_of run prefix (l ++ l') =
  lines_of run prefix l ++ lines_of run prefix l'.
Proof. apply flat_map_app. Qed.

Lemma lines_of_map {P} (f : P -> walker) (prefix : string)
    (l : list (string * P)) :
  lines_of (fun w => w) prefix (map (fun e => (fst e, f (snd e))) l) =
  lines_of f prefix l.
Proof. unfold lines_of. now rewrite flat_map_of_map. Qed.

Lemma reaches_ret {A} (prefix : string) (a : A) :
  reaches prefix [] (ret a).
Proof. exists [], []. repeat split. Qed.

Lemma reaches_raise {A} (prefix : string) (L : list (string * walker))
    (e : exn) :
  reaches prefix L (@raise line A e).
Proof. exists [], L. repeat split. intros r H. discriminate H. Qed.

Lemma reaches_bind {A B} (prefix : string) (LA LB : list (string * walker))
    (m : M line A) (k : A -> M line B) :
  appends m -> (forall a, appends (k a)) ->
  reaches prefix LA m -> (forall a, reaches prefix LB (k a)) ->
  reaches prefix (LA ++ LB) (bind m k).
Proof.
  intros Hm Hk [A1 [A2 [EA [WA RA]]]] HB. unfold reaches.
  rewrite (written_bind m k Hm Hk), (outcome_bind m k Hm Hk).
  destruct (outcome m) as [e|a] eqn:Eo.
  - exists A1, (A2 ++ LB). rewrite EA, <- app_assoc, app_nil_r.
    split; [reflexivity|]. split; [exact WA|]. intros r H. discriminate H.
  - destruct (HB a) as [B1 [B2 [EB [WB RB]]]].
    rewrite (RA a eq_refl), app_nil_r in EA. subst LA.
    exists (A1 ++ B1), B2. rewrite EB, <- app_assoc, lines_of_app, WA, WB.
    split; [reflexivity|]. split; [reflexivity | exact RB].
Qed.

Lemma reaches_for_each {A S} (prefix : string)
    (F : A -> list (string * walker)) (l : list A)
    (body : A -> S -> M line S) :
  (forall x, In x l -> forall s, appends (body x s)) ->
  (forall x, In x l -> forall s, reaches prefix (F x) (body x s)) ->
  forall s, reaches prefix (flat_map F l) (for_each l body s).
Proof.
  induction l as [|x l IH]; intros Ha Hr s; cbn [for_each flat_map].
  - apply reaches_ret.
  - apply reaches_bind.
    + apply Ha. now left.
    + intros s'. apply appends_for_each. intros y Hy. apply Ha. now right.
    + apply Hr. now left.
    + intros s'. apply IH; intros y Hy; [apply Ha | apply Hr]; now right.
Qed.

Lemma visit_command_appends (d : list (string * walker)) (prefix cmd : string)
    (commands : list string) :
  Forall (fun e => walker_appends (snd e)) d ->
  appends (visit_command d prefix cmd commands).
Proof.
  intros H. unfold visit_command.
  destruct (Py.dict_get d cmd) as [child|] eqn:E; [|apply appends_raise].
  apply appends_bind; [|intros; apply appends_ret].
  apply (child_in d walker_appends cmd child H E).
Qed.

Lemma visit_command_reaches (d : list (string * walker)) (prefix cmd : string)
    (commands : list string) :
  Forall (fun e => walker_appends (snd e)) d ->
  reaches prefix
    match Py.dict_get d cmd with
    | Some child => [(cmd, child)]
    | None => []
    end
    (visit_command d prefix cmd commands).
Proof.
  intros H. pose proof (visit_command_appends d prefix cmd commands H) as Ha.
  unfold visit_command in *.
  destruct (Py.dict_get d cmd) as [child|] eqn:E; [|apply reaches_raise].
  exists [(cmd, child)], []. split; [reflexivity|]. split; [|reflexivity].
  rewrite written_bind;
    [|apply (child_in d walker_appends cmd child H E)
     |intros; apply appends_ret].
  unfold lines_of. cbn [flat_map fst snd]. f_equal.
  now destruct (outcome (child (child_prefix prefix cmd))).
Qed.

Lemma visit_positional_reaches (prefix : string) (sub : Action walker)
    (st : list string * list string) :
  children_all walker_appends sub ->
  reaches prefix (dispatched sub) (visit_positional prefix sub st).
Proof.
  intros H. destruct st as [commands dests].
  unfold visit_positional, visit_choices, dispatched, children_all in *.
  destruct (choices sub) as [|d|l]; cbn [choices_truthy].
  - destruct (negb _); apply reaches_ret.
  - destruct (Py.truthy_list d) eqn:Et.
    + rewrite <- (app_nil_r (flat_map _ _)).
      apply reaches_bind; [| |
        |intros; apply reaches_ret].
      * apply appends_for_each. intros cmd _ s.
        now apply visit_command_appends.
      * intros; apply appends_ret.
      * apply reaches_for_each.
        -- intros cmd _ s. now apply visit_command_appends.
        -- intros cmd _ s. now apply visit_command_reaches.
    + destruct d; [|discriminate Et]. simpl.
      destruct (negb _); apply reaches_ret.
  - destruct (Py.truthy_list l).
    + rewrite <- (app_nil_r []).
      apply reaches_bind;
        [apply appends_for_each; intros; apply appends_raise
        |intros; apply appends_ret
        | |intros; apply reaches_ret].
      destruct (Py.sorted _ l); [apply reaches_ret | ].
      cbn [for_each]. exists [], []. repeat split.
    + destruct (negb _); apply reaches_ret.
Qed.

Lemma loop_reaches (prefix : string) (positionals : list (Action walker))
    (st : list string * list string) :
  Forall (children_all walker_appends) positionals ->
  reaches prefix (dispatch positionals)
    (for_each positionals (visit_positional prefix) st).
Proof.
  intros H. unfold dispatch. apply reaches_for_each.
  - intros sub Hsub s. apply visit_positional_appends.
    now apply (proj1 (Forall_forall _ _) H).
  - intros sub Hsub s. apply visit_positional_reaches.
    now apply (proj1 (Forall_forall _ _) H).
Qed.

Lemma print_options_written (prefix : string)
    (positionals : list (Action walker)) (optionals : list OptionalAction) :
  written (print_options prefix positionals optionals) =
  if String.eqb prefix ROOT_PREFIX then []
  else [OptionsLine prefix (visibleOptions positionals optionals)].
Proof.
  unfold print_options, written.
  destruct (String.eqb prefix ROOT_PREFIX); [reflexivity|].
  now rewrite strs_node_opts.
Qed.

Lemma step_shape (positionals : list (Action walker))
    (optionals : list OptionalAction) (prefix : string) :
  Forall (children_all walker_appends) positionals ->
  exists L1 L2 tail,
    dispatch positionals = L1 ++ L2
    /\ written (print_bash_commands_step positionals optionals prefix) =
       (if String.eqb prefix ROOT_PREFIX then []
        else [OptionsLine prefix (visibleOptions positionals optionals)])
       ++ lines_of (fun w => w) prefix L1 ++ tail
    /\ (tail = []
        \/ L2 = []
           /\ tail = written (print_compgen prefix
                                (completable_dests positionals))).
Proof.
  intros H. unfold print_bash_commands_step.
  assert (Hk : forall st : list string * list string,
             appends (print_compgen prefix (snd st) ;; ret (fst st))).
  { intros st. apply appends_bind;
      [apply print_compgen_appends | intros; apply appends_ret]. }
  rewrite written_bind;
    [|apply print_options_appends
     |intros _; apply appends_bind; [now apply loop_appends | exact Hk]].
  rewrite print_options_written.
  unfold outcome at 1. rewrite print_options_outcome.
  rewrite written_bind; [|now apply loop_appends | exact Hk].
  destruct (loop_reaches prefix positionals ([], []) H)
    as [L1 [L2 [EL [WL RL]]]].
  rewrite WL.
  destruct (outcome (for_each positionals (visit_positional prefix) ([], [])))
    as [e|[c d]] eqn:Eo.
  - exists L1, L2, []. split; [exact EL|]. split; [reflexivity | now left].
  - exists L1, L2,
      (written (print_compgen prefix (completable_dests positionals))).
    split; [exact EL|]. split.
    + do 2 f_equal.
      rewrite written_bind;
        [|apply print_compgen_appends | intros; apply appends_ret].
      unfold outcome at 1. rewrite print_compgen_outcome.
      unfold written at 2. cbn [ret fst snd]. rewrite app_nil_r.
      unfold outcome in Eo.
      pose proof (loop_dests prefix positionals [] [] []
                    (fst (for_each positionals (visit_positional prefix)
                            ([], []) []))
                    c d) as Hl.
      rewrite <- Eo, <- surjective_pairing in Hl. specialize (Hl eq_refl).
      now subst d.
    + right. split; [exact (RL _ eq_refl) | reflexivity].
Qed.

(** The output of the traversal of any tree, at any prefix, has the
    shape of [shape]. *)
Lemma traversal_shape (p : ArgumentParser) (prefix : string) : shape p prefix.
Proof.
  destruct p as [pos opt]. unfold shape.
  cbn [print_bash_commands _get_positional_actions].
  destruct (step_shape (map (Action_map print_bash_commands) pos) opt prefix)
    as [L1 [L2 [tail [EL [Ew Ht]]]]].
  { apply Forall_children_map, Forall_children_intro.
    apply print_bash_commands_appends. }
  rewrite dispatch_map in EL. apply map_eq_app in EL.
  destruct EL as [K1 [K2 [EK [<- <-]]]].
  exists K1, K2, tail. split; [exact EK|]. split.
  - rewrite Ew, visibleOptions_map, lines_of_map. reflexivity.
  - destruct Ht as [Ht|[E2 Ht]]; [now left | right].
    split; [now destruct K2|].
    rewrite Ht, completable_dests_map. apply print_compgen_classify.
Qed.

End Shape.

(** ** Trees on which the traversal raises *)

Section Failure.

Lemma for_each_raises {W A S} (e0 : exn) (l : list A)
    (body : A -> S -> M W S) :
  (forall x, In x l -> forall s, raises_only (eq e0) (body x s)) ->
  (exists x, In x l /\ forall s fd, snd (body x s fd) = inl e0) ->
  forall s fd, snd (for_each l body s fd) = inl e0.
Proof.
  induction l as [|y l IH]; intros Ho [x [Hin Hx]] s fd; [destruct Hin|].
  cbn [for_each]. unfold bind.
  destruct (body y s fd) as [fd1 [e|s1]] eqn:E.
  - cbn [snd]. f_equal. symmetry.
    apply (Ho y (or_introl eq_refl) s fd). now rewrite E.
  - destruct Hin as [->|Hin].
    + specialize (Hx s fd). rewrite E in Hx. discriminate Hx.
    + apply IH; [intros z Hz; apply Ho; now right | now exists x].
Qed.

Lemma forallb_false {A} (f : A -> bool) (l : list A) :
  forallb f l = false -> exists x, In x l /\ f x = false.
Proof.
  induction l as [|y l IH]; simpl; [discriminate|].
  destruct (f y) eqn:E; simpl.
  - intros H. destruct (IH H) as [x [Hx Hf]]. exists x. split; [now right|].
    exact Hf.
  - intros _. exists y. split; [now left | exact E].
Qed.

Lemma visit_command_raises (d : list (string * walker)) (prefix cmd : string)
    (commands : list string) :
  In cmd (Py.keys d) ->
  Forall (fun e => walker_raises_TypeError (snd e)) d ->
  raises_only (eq TypeError) (visit_command d prefix cmd commands).
Proof.
  intros Hin H. apply dict_get_in in Hin. destruct Hin as [child E].
  unfold visit_command. rewrite E.
  apply raises_only_bind; [|intros; apply raises_only_ret].
  apply (child_in d walker_raises_TypeError cmd child H E).
Qed.

(** The traversal raises when one round of its loop always does. *)
Lemma step_raises_at (positionals : list (Action walker))
    (optionals : list OptionalAction) (prefix : string)
    (fd : StringIO line) :
  Forall (children_all walker_raises_TypeError) positionals ->
  (exists sub, In sub positionals
               /\ forall st fd',
                    snd (visit_positional prefix sub st fd') = inl TypeError) ->
  snd (print_bash_commands_step positionals optionals prefix fd)
  = inl TypeError.
Proof.
  intros Hr Hex. unfold print_bash_commands_step. unfold bind at 1.
  pose proof (print_options_outcome prefix positionals optionals fd) as Ho.
  destruct (print_options prefix positionals optionals fd) as [fd1 r].
  simpl in Ho. subst r. unfold bind at 1.
  pose proof (for_each_raises TypeError positionals
                (visit_positional prefix)) as Hl.
  assert (Ho : forall x, In x positionals ->
                 forall s, raises_only (eq TypeError)
                             (visit_positional prefix x s)).
  { intros x Hx s. apply visit_positional_raises.
    now apply (proj1 (Forall_forall _ _) Hr). }
  specialize (Hl Ho Hex ([], []) fd1).
  destruct (for_each positionals (visit_positional prefix) ([], []) fd1)
    as [fd2 [e|st]];
    simpl in Hl; [injection Hl as ->; reflexivity | discriminate Hl].
Qed.

(** With a child that raises among the values of its dict, a positional
    makes its round of the loop raise. *)
Lemma visit_child_raises (prefix : string) (a : Action ArgumentParser)
    (d : list (string * ArgumentParser)) (cmd : string)
    (child : ArgumentParser) :
  choices a = Subparsers d -> NoDup (Py.keys d) -> In (cmd, child) d ->
  (forall prefix' fd,
      snd (print_bash_commands child prefix' fd) = inl TypeError) ->
  forall st fd,
    snd (visit_positional prefix (Action_map print_bash_commands a) st fd)
    = inl TypeError.
Proof.
  intros Hc Hn Hin Hchild [commands dests] fd.
  unfold visit_positional, visit_choices. cbn [Action_map choices dest].
  rewrite Hc. cbn [Choices_map choices_truthy].
  set (d' := map (fun e => (fst e, print_bash_commands (snd e))) d).
  assert (Et : Py.truthy_list d' = true)
    by (unfold d'; destruct d; [destruct Hin | reflexivity]).
  rewrite Et. unfold bind at 1.
  assert (Hk : In cmd (Py.keys d')).
  { unfold d'. rewrite keys_map. now apply (in_map fst d (cmd, child)). }
  pose proof (for_each_raises TypeError (Py.sorted String.ltb (Py.keys d'))
                (visit_command d' prefix)) as Hl.
  assert (Ho : forall x, In x (Py.sorted String.ltb (Py.keys d')) ->
                 forall s, raises_only (eq TypeError)
                             (visit_command d' prefix x s)).
  { intros x Hx s. apply visit_command_raises; [now apply sorted_in in Hx|].
    unfold d'. apply Forall_map. apply Forall_forall. intros e _.
    apply print_bash_commands_raises. }
  assert (Hex : exists x, In x (Py.sorted String.ltb (Py.keys d'))
                          /\ forall s fd',
                               snd (visit_command d' prefix x s fd')
                               = inl TypeError).
  { exists cmd. split; [now apply sorted_in|]. intros s fd'.
    unfold visit_command.
    assert (Eg : Py.dict_get d' cmd = Some (print_bash_commands child)).
    { apply NoDup_keys_in.
      - unfold d'. now rewrite keys_map.
      - unfold d'.
        now apply (in_map (fun e => (fst e, print_bash_commands (snd e)))
                     d (cmd, child)). }
    rewrite Eg. unfold bind.
    specialize (Hchild (child_prefix prefix cmd) fd').
    destruct (print_bash_commands child (child_prefix prefix cmd) fd')
      as [fd2 r].
    simpl in Hchild. now subst r. }
  specialize (Hl Ho Hex commands fd).
  destruct (for_each (Py.sorted String.ltb (Py.keys d'))
              (visit_command d' prefix) commands fd) as [fd2 [e|c]];
    simpl in Hl; [injection Hl as ->; reflexivity | discriminate Hl].
Qed.

(** The traversal of a tree with a non-empty list of markers somewhere
    raises [TypeError]. *)
Lemma unfinished (p : ArgumentParser) :
  dicts_valid p = true -> marker_free p = false ->
  forall prefix fd, snd (print_bash_commands p prefix fd) = inl TypeError.
Proof.
  induction p as [pos opt IH] using ArgumentParser_tree_ind.
  intros Hv Hm prefix fd. cbn [print_bash_commands].
  apply step_raises_at.
  { apply Forall_children_map, Forall_children_intro.
    apply print_bash_commands_raises. }
  simpl in Hm. apply forallb_false in Hm. destruct Hm as [a [Ha Hf]].
  exists (Action_map print_bash_commands a). split; [now apply in_map|].
  apply dicts_valid_inv in Hv. destruct Hv as [Hn Hvc].
  rewrite Forall_forall in IH, Hvc.
  specialize (IH a Ha). specialize (Hvc a Ha).
  unfold children_all in IH, Hvc.
  destruct (choices a) as [|d|l] eqn:Ec; [discriminate Hf| |].
  - apply forallb_false in Hf. destruct Hf as [[cmd child] [He Hf]].
    rewrite Forall_forall in IH, Hvc.
    apply (visit_child_raises prefix a d cmd child Ec (Hn a d Ha Ec) He).
    apply (IH (cmd, child) He (Hvc (cmd, child) He) Hf).
  - intros st fd'. apply negb_false_iff in Hf.
    rewrite (marker_visit_raises prefix (Action_map print_bash_commands a)
               l st fd'); [reflexivity | simpl; now rewrite Ec | exact Hf].
Qed.

End Failure.

(** ** Uniqueness of the identifiers *)

Section Uniqueness.

Lemma unambiguous_child (p child : ArgumentParser) (cmd : string) :
  unambiguous p ->
  In (cmd, child) (dispatch (_get_positional_actions p)) ->
  unambiguous child /\ plain_name cmd = true.
Proof.
  destruct p as [pos opt]. intros [Hu Hp] Hin.
  cbn [_get_positional_actions] in Hin.
  apply dispatch_in in Hin. destruct Hin as [sub [d [Hsub [Hc Hd]]]].
  simpl in Hu, Hp. apply andb_true_iff in Hu. destruct Hu as [_ Hu].
  rewrite forallb_forall in Hu, Hp.
  specialize (Hu sub Hsub). specialize (Hp sub Hsub).
  rewrite Hc in Hu, Hp. rewrite forallb_forall in Hu, Hp.
  specialize (Hu _ Hd). specialize (Hp _ Hd).
  apply andb_true_iff in Hp. simpl in Hu, Hp.
  repeat split; tauto.
Qed.

Lemma identifiers_unique_at (p : ArgumentParser) :
  unambiguous p ->
  forall prefix,
    NoDup (identifiers (written (print_bash_commands p prefix))).
Proof.
  induction p as [pos opt IH] using ArgumentParser_tree_ind.
  intros Hp prefix.
  destruct (traversal_shape (Parser pos opt) prefix)
    as [L1 [L2 [tail [EL [Ew Ht]]]]].
  cbn [_get_positional_actions] in EL, Ht.
  rewrite Ew, !identifiers_app.
  assert (Etail : identifiers tail = []).
  { destruct Ht as [->|[_ ->]]; [reflexivity | apply identifiers_strategy]. }
  rewrite Etail, app_nil_r.
  unfold lines_of. rewrite identifiers_flat_map.
  apply dispatch_children in IH.
  assert (Hsub : forall e, In e L1 -> In e (dispatch pos)).
  { intros e He. rewrite EL. apply in_or_app. now left. }
  assert (Hkids :
    NoDup (flat_map
             (fun e => identifiers
                         (written (print_bash_commands (snd e)
                                     (child_prefix prefix (fst e)))))
             L1)).
  { apply (NoDup_flat_map fst).
    - assert (Hn : NoDup (map fst (dispatch pos))).
      { apply (Permutation_NoDup (l := choice_strings pos));
          [symmetry; apply dispatch_names|].
        apply nodupb_NoDup. destruct Hp as [Hu _]. simpl in Hu.
        now apply andb_true_iff in Hu. }
      rewrite EL, map_app in Hn. now apply NoDup_app_remove_r in Hn.
    - intros [cmd child] Hin. apply Hsub in Hin.
      apply (proj1 (Forall_forall _ _) IH (cmd, child) Hin).
      now apply (unambiguous_child (Parser pos opt) child cmd).
    - intros [c1 p1] [c2 p2] x H1 H2 Hx1 Hx2. cbn [fst snd] in *.
      apply Hsub in H1, H2.
      destruct (unambiguous_child _ _ _ Hp H1) as [_ Hn1].
      destruct (unambiguous_child _ _ _ Hp H2) as [_ Hn2].
      unfold plain_name in Hn1, Hn2.
      apply andb_true_iff in Hn1, Hn2.
      rewrite !negb_true_iff in Hn1, Hn2.
      apply identifiers_under, (under_child_tail _ _ _ (proj1 Hn1)) in Hx1.
      apply identifiers_under, (under_child_tail _ _ _ (proj1 Hn2)) in Hx2.
      destruct Hx1 as [r1 [T1 ->]]. destruct Hx2 as [r2 [T2 E]].
      apply append_inj_l in E. simpl in E. injection E as E.
      now apply (name_unique c1 c2 r1 r2 (proj2 Hn1) (proj2 Hn2) T1 T2). }
  unfold options_lines. destruct (String.eqb prefix ROOT_PREFIX);
    [exact Hkids|].
  cbn [identifiers flat_map app]. constructor; [|exact Hkids].
  intros Hin. apply in_flat_map in Hin. destruct Hin as [[cmd child] [_ Hx]].
  apply identifiers_under, below_child, below_neq in Hx. now apply Hx.
Qed.

End Uniqueness.

(** ** The claims on the whole traversal *)

Section Wrap.

Lemma complete_raises (p : ArgumentParser) (e : exn) :
  snd (print_bash_commands p ROOT_PREFIX []) = inl e ->
  complete p "bash" = ([], inl e).
Proof.
  intros H. unfold complete, print_bash. cbn [String.eqb Ascii.eqb Bool.eqb].
  destruct (print_bash_commands p ROOT_PREFIX []) as [bash r].
  simpl in H. now subst r.
Qed.

End Wrap.

(** C1. In the traversal of a tree from the root, the root prints no
    options line, and every other node prints its options line first;
    then come, for each positional with choices in declared order, the
    lines of the children reached by its choices taken in sorted order;
    the node's own strategy line, if any, comes last, after the lines of
    all its descendants. A traversal that raises stops in this order: it
    has printed the lines of a front part of the children and no
    strategy line. *)
Theorem emission_order (root : ArgumentParser) (depth : nat)
    (p : ArgumentParser) (prefix : string) :
  visited root depth p prefix ->
  (exists L1 L2 tail,
      dispatch (_get_positional_actions p) = L1 ++ L2
      /\ written (print_bash_commands p prefix) =
         match depth with
         | 0 => []
         | S _ => [OptionsLine prefix
                     (visibleOptions (_get_positional_actions p)
                                     (_get_optional_actions p))]
         end
         ++ lines_of print_bash_commands prefix L1 ++ tail
      /\ (tail = []
          \/ L2 = []
             /\ tail = strategy_lines prefix
                         (classify
                            (plain_names (_get_positional_actions p)))))
  /\ (marker_free p = true ->
      print_bash_commands p prefix [] =
      (match depth with
       | 0 => []
       | S _ => [OptionsLine prefix
                   (visibleOptions (_get_positional_actions p)
                                   (_get_optional_actions p))]
       end
       ++ lines_of print_bash_commands prefix
            (dispatch (_get_positional_actions p))
       ++ strategy_lines prefix
            (classify (plain_names (_get_positional_actions p))),
       inr (map fst (dispatch (_get_positional_actions p)))))
  /\ forall sub d,
       In sub (_get_positional_actions p) ->
       choices sub = Subparsers d ->
       map fst (dispatched sub) = Py.sorted String.ltb (Py.keys d)
       /\ StronglySorted str_le (map fst (dispatched sub))
       /\ Permutation (map fst (dispatched sub)) (Py.keys d).
Proof.
  intros Hv. destruct (visited_under root depth p prefix Hv) as [_ Hd].
  assert (Eo : options_lines prefix p =
               match depth with
               | 0 => []
               | S _ => [OptionsLine prefix
                           (visibleOptions (_get_positional_actions p)
                                           (_get_optional_actions p))]
               end).
  { unfold options_lines. rewrite Hd. now destruct depth. }
  rewrite <- Eo. split; [apply traversal_shape|]. split.
  - intros Hm. apply (print_bash_commands_run p Hm prefix []).
  - intros sub d _ Hc. rewrite map_fst_dispatched, Hc.
    split; [reflexivity|].
    split; [apply sorted_keys_sorted | apply sorted_perm].
Qed.

Lemma emission_order_witness :
  visited scenario_B 1 remote_parser "_dvc_remote"
  /\ marker_free remote_parser = true
  /\ print_bash_commands remote_parser "_dvc_remote" [] =
     ([OptionsLine "_dvc_remote" ["remove"; "add"]]
      ++ (written (print_bash_commands leaf "_dvc_remote_add")
          ++ written (print_bash_commands leaf "_dvc_remote_remove"))
      ++ [],
      inr ["add"; "remove"]).
Proof.
  assert (Hv : visited scenario_B 1 remote_parser "_dvc_remote").
  { apply (visited_child scenario_B 0 scenario_B ROOT_PREFIX "remote"
             remote_parser).
    - apply visited_root.
    - left. reflexivity. }
  split; [exact Hv|]. split; [reflexivity|].
  exact (proj1 (proj2 (emission_order scenario_B 1 remote_parser
                         "_dvc_remote" Hv)) eq_refl).
Defined.

(** C2, as stated, fails: the names [a-b] and [a_b] of two siblings are
    distinct and give one identifier, and so do the path [a], [b] and
    the name [a_b]. *)
Lemma identifier_collision :
  (unique_siblings hyphen_collision = true
   /\ identifiers (written (print_bash_commands hyphen_collision ROOT_PREFIX))
      = ["_dvc_a_b"; "_dvc_a_b"]
   /\ ~ NoDup (identifiers
                 (written (print_bash_commands hyphen_collision ROOT_PREFIX))))
  /\ (unique_siblings nested_collision = true
      /\ identifiers (written (print_bash_commands nested_collision ROOT_PREFIX))
         = ["_dvc_a"; "_dvc_a_b"; "_dvc_a_b"]
      /\ ~ NoDup (identifiers
                    (written
                       (print_bash_commands nested_collision ROOT_PREFIX)))).
Proof.
  split; (split; [reflexivity|]; split; [reflexivity|]).
  - intros H. inversion H as [|? ? Hn _]; subst. apply Hn. now left.
  - intros H. inversion H as [|? ? _ H']; subst.
    inversion H' as [|? ? Hn _]; subst. apply Hn. now left.
Qed.

(** C2, amended. On a tree in which the names of the subcommands of
    each node are pairwise distinct and no name of a subcommand holds a
    hyphen or an underscore, the identifiers given to the nodes are
    pairwise distinct. *)
Theorem identifiers_unique (p : ArgumentParser) :
  unique_siblings p = true ->
  plain_subcommands p = true ->
  NoDup (identifiers (written (print_bash_commands p ROOT_PREFIX))).
Proof.
  intros Hu Hp. apply identifiers_unique_at. now split.
Qed.

Lemma identifiers_unique_witness :
  unique_siblings scenario_B = true
  /\ plain_subcommands scenario_B = true
  /\ NoDup ["_dvc_remote"; "_dvc_remote_add"; "_dvc_remote_remove"].
Proof.
  repeat (split; [reflexivity|]).
  exact (identifiers_unique scenario_B eq_refl eq_refl).
Defined.

(** C7, as stated, fails: a subcommand below the root prints its own
    choices in insertion order on its options line. *)
Lemma reordering_changes_output :
  same_up_to_order scenario_B scenario_B'
  /\ written (print_bash_commands scenario_B ROOT_PREFIX) =
     [OptionsLine "_dvc_remote" ["remove"; "add"];
      OptionsLine "_dvc_remote_add" [];
      OptionsLine "_dvc_remote_remove" []]
  /\ written (print_bash_commands scenario_B' ROOT_PREFIX) =
     [OptionsLine "_dvc_remote" ["add"; "remove"];
      OptionsLine "_dvc_remote_add" [];
      OptionsLine "_dvc_remote_remove" []]
  /\ complete scenario_B "bash" <> complete scenario_B' "bash".
Proof.
  split; [repeat split; reflexivity|].
  split; [reflexivity|]. split; [reflexivity|].
  intros H. apply (f_equal snd) in H. vm_compute in H.
  injection H as H. discriminate H.
Qed.

(** C7, amended. For two trees that differ only in the insertion order
    of the entries of their dicts, generation ends in the same way: it
    raises for both, or it returns for both, with the same list of
    commands and the same lines in the same order, with the same
    identifiers and strategy markers and, on each options line, the same
    options up to their order. When the two trees differ only in the
    insertion order of the subcommands of the root, [complete] gives the
    same result. *)
Theorem reordering_keeps_lines (t1 t2 : ArgumentParser) :
  (same_up_to_order t1 t2 ->
   marker_free t1 = marker_free t2
   /\ outcome (print_bash_commands t1 ROOT_PREFIX) =
      outcome (print_bash_commands t2 ROOT_PREFIX)
   /\ (marker_free t1 = true ->
       Forall2 line_sim (written (print_bash_commands t1 ROOT_PREFIX))
                        (written (print_bash_commands t2 ROOT_PREFIX)))
   /\ (marker_free t1 = false ->
       complete t1 "bash" = ([], inl TypeError)
       /\ complete t2 "bash" = ([], inl TypeError)))
  /\ (root_reordered t1 t2 ->
      forall shell, complete t1 shell = complete t2 shell).
Proof.
  split.
  - intros [Hv1 [Hv2 Hc]].
    assert (Hm : marker_free t1 = marker_free t2)
      by now rewrite <- (marker_free_canonical t1), Hc, marker_free_canonical.
    split; [exact Hm|].
    destruct (marker_free t1) eqn:Hm1; symmetry in Hm.
    + destruct (canonical_traversal t1 Hv1 Hm1 ROOT_PREFIX) as [Hl1 Ho1].
      destruct (canonical_traversal t2 Hv2 Hm ROOT_PREFIX) as [Hl2 Ho2].
      rewrite Hc in Hl1, Ho1.
      split; [congruence|]. split; [|discriminate].
      intros _. apply (Forall2_trans_on _ _ _ _ line_sim_trans Hl1).
      apply Forall2_sym_on; [apply line_sim_sym | exact Hl2].
    + pose proof (unfinished t1 Hv1 Hm1 ROOT_PREFIX []) as H1.
      pose proof (unfinished t2 Hv2 Hm ROOT_PREFIX []) as H2.
      split; [unfold outcome; congruence|]. split; [discriminate|].
      intros _. split; now apply complete_raises.
  - intros Hr shell. unfold complete, print_bash.
    now rewrite (root_reordered_traversal t1 t2 Hr).
Qed.

Lemma reordering_keeps_lines_witness :
  (same_up_to_order scenario_B scenario_B'
   /\ marker_free scenario_B = true
   /\ Forall2 line_sim
        [OptionsLine "_dvc_remote" ["remove"; "add"];
         OptionsLine "_dvc_remote_add" [];
         OptionsLine "_dvc_remote_remove" []]
        [OptionsLine "_dvc_remote" ["add"; "remove"];
         OptionsLine "_dvc_remote_add" [];
         OptionsLine "_dvc_remote_remove" []])
  /\ (root_reordered two_commands two_commands'
      /\ complete two_commands "bash" = complete two_commands' "bash").
Proof.
  assert (H1 : same_up_to_order scenario_B scenario_B')
    by (repeat split; reflexivity).
  assert (H2 : root_reordered two_commands two_commands').
  { split; [reflexivity|]. constructor; [|constructor].
    split; [reflexivity|]. split.
    - constructor; [|constructor; [|constructor]].
      + intros [H|[]]. discriminate H.
      + intros [].
    - apply perm_swap. }
  split.
  - split; [exact H1|]. split; [reflexivity|].
    exact (proj1 (proj2 (proj2 (proj1 (reordering_keeps_lines
                                         scenario_B scenario_B') H1)))
             eq_refl).
  - split; [exact H2|].
    exact (proj2 (reordering_keeps_lines two_commands two_commands')
             H2 "bash").
Defined.

(** C10. On a tree with a positional whose choices are a non-empty list
    of [Choice] markers, as [Optional.FILE] and [Required.FILE] are, the
    traversal raises [TypeError] when it indexes the list by the marker:
    it returns no list of commands, and [complete] raises with nothing
    printed. The traversal returns on the trees without such a
    positional, and on no other tree. *)
Theorem choice_markers_raise :
  (print_bash_commands file_parser ROOT_PREFIX [] = ([], inl TypeError)
   /\ complete file_parser "bash" = ([], inl TypeError)
   /\ print_bash_commands get_file_parser ROOT_PREFIX [] =
      ([OptionsLine "_dvc_get" ["--all"]], inl TypeError)
   /\ complete get_file_parser "bash" = ([], inl TypeError))
  /\ (forall positionals optionals sub l prefix fd,
         In sub positionals -> choices sub = Markers l -> l <> [] ->
         snd (print_bash_commands (Parser positionals optionals) prefix fd)
         = inl TypeError
         /\ complete (Parser positionals optionals) "bash"
            = ([], inl TypeError))
  /\ (forall p,
         dicts_valid p = true -> marker_free p = false ->
         (forall prefix fd,
             snd (print_bash_commands p prefix fd) = inl TypeError)
         /\ complete p "bash" = ([], inl TypeError))
  /\ (forall p prefix,
         marker_free p = true ->
         outcome (print_bash_commands p prefix) =
         inr (map fst (dispatch (_get_positional_actions p)))).
Proof.
  split; [repeat split; reflexivity|]. split; [|split].
  - intros pos opt sub l prefix fd Hin Hc Hl. split.
    + now apply (markers_raise pos opt sub l).
    + apply complete_raises. now apply (markers_raise pos opt sub l).
  - intros p Hv Hm. split.
    + now apply unfinished.
    + apply complete_raises. now apply unfinished.
  - intros p prefix Hm. unfold outcome.
    now rewrite (print_bash_commands_run p Hm prefix []).
Qed.

Lemma choice_markers_raise_witness :
  (In dir_action (_get_positional_actions init_parser)
   /\ choices dir_action = Markers Required.DIR
   /\ Required.DIR <> []
   /\ snd (print_bash_commands init_parser "_dvc_init" []) = inl TypeError)
  /\ (dicts_valid get_file_parser = true
      /\ marker_free get_file_parser = false
      /\ complete get_file_parser "bash" = ([], inl TypeError))
  /\ (marker_free scenario_B = true
      /\ outcome (print_bash_commands scenario_B ROOT_PREFIX)
         = inr ["remote"]).
Proof.
  assert (H1 : In dir_action (_get_positional_actions init_parser))
    by (right; left; reflexivity).
  assert (H2 : Required.DIR <> []) by discriminate.
  split; [|split].
  - split; [exact H1|]. split; [reflexivity|]. split; [exact H2|].
    exact (proj1 (proj1 (proj2 choice_markers_raise)
                    _ [] dir_action Required.DIR "_dvc_init" []
                    H1 eq_refl H2)).
  - split; [reflexivity|]. split; [reflexivity|].
    exact (proj2 (proj1 (proj2 (proj2 choice_markers_raise))
                    get_file_parser eq_refl eq_refl)).
  - split; [reflexivity|].
    exact (proj2 (proj2 (proj2 choice_markers_raise))
             scenario_B ROOT_PREFIX eq_refl).
Defined.

(** * Further properties of the module *)

Section Exceptions.


End Exceptions.




(** X3. The comparison of a marker: it is equal to the other object or
    less than it, never both; a marker that is not required equals every
    object, a required one equals the objects that are true and is less
    than the others; no marker is less than a marker, so [sorted] leaves
    a list of markers as it is. *)
Theorem Choice_ordering (c : Choice) (other_truthy : bool) :
  Choice_eq c other_truthy = negb (Choice_lt c other_truthy)
  /\ (required c = false -> Choice_eq c other_truthy = true)
  /\ (required c = true ->
      Choice_eq c other_truthy = other_truthy
      /\ Choice_lt c other_truthy = negb other_truthy)
  /\ required (Choice_init (choice_type c)) = false
  /\ forall l : list Choice, Py.sorted (fun a _ => Choice_lt a true) l = l.
Proof.
  split; [|split; [|split; [|split]]].
  - unfold Choice_eq, Choice_lt, Choice_cmp.
    now destruct (required c), other_truthy.
  - intros H. unfold Choice_eq, Choice_cmp. now rewrite H.
  - intros H. unfold Choice_eq, Choice_lt, Choice_cmp. rewrite H.
    now destruct other_truthy.
  - reflexivity.
  - induction l as [|a l IH]; simpl; [reflexivity|]. rewrite IH.
    destruct l as [|b l]; [reflexivity|]. simpl.
    assert (E : Choice_lt b true = false).
    { unfold Choice_lt, Choice_cmp. now destruct (required b). }
    now rewrite E.
Qed.

Lemma Choice_ordering_witness :
  (required (mkChoice "file" true) = true
   /\ Choice_eq (mkChoice "file" true) false = false
   /\ Choice_lt (mkChoice "file" true) false = true)
  /\ (required (Choice_init "file") = false
      /\ Choice_eq (Choice_init "file") false = true).
Proof.
  split.
  - split; [reflexivity|].
    exact (proj1 (proj2 (proj2 (Choice_ordering (mkChoice "file" true)
                                  false)))
             eq_refl).
  - split; [reflexivity|].
    exact (proj1 (proj2 (Choice_ordering (Choice_init "file") false))
             eq_refl).
Defined.

Section Invariants.

(** A property of lines that holds of a node's own lines and goes up
    from a child to its parent holds of all the lines of a traversal. *)
Lemma traversal_invariant (Q : string -> line -> Prop) :
  (forall prefix opts, Q prefix (OptionsLine prefix opts)) ->
  (forall prefix fn, Q prefix (CompgenLine prefix fn)) ->
  (forall prefix cmd l, Q (child_prefix prefix cmd) l -> Q prefix l) ->
  forall p prefix, emits (Q prefix) (print_bash_commands p prefix).
Proof.
  intros Ho Hc Hup.
  induction p as [pos opt IH] using ArgumentParser_tree_ind.
  intros prefix. cbn [print_bash_commands].
  apply (Forall_children_map print_bash_commands
           (fun w : walker => forall prefix, emits (Q prefix) (w prefix)))
    in IH.
  unfold print_bash_commands_step.
  apply emits_bind; [|intros _; apply emits_bind].
  - unfold print_options. destruct (String.eqb prefix ROOT_PREFIX);
      [apply emits_ret|].
    rewrite strs_node_opts. apply emits_print, Ho.
  - apply emits_for_each. intros sub Hsub [commands dests].
    apply (proj1 (Forall_forall _ _) IH) in Hsub.
    unfold visit_positional, visit_choices, children_all in *.
    destruct (choices sub) as [|d|l]; cbn [choices_truthy].
    + destruct (negb _); apply emits_ret.
    + destruct (Py.truthy_list d); [|destruct (negb _); apply emits_ret].
      apply emits_bind; [|intros; apply emits_ret].
      apply emits_for_each. intros cmd _ s. unfold visit_command.
      destruct (Py.dict_get d cmd) as [child|] eqn:E; [|apply emits_raise].
      apply emits_bind; [|intros; apply emits_ret].
      apply (emits_weaken (Q (child_prefix prefix cmd))); [apply Hup|].
      apply (child_in d
               (fun w : walker => forall prefix, emits (Q prefix) (w prefix))
               cmd child Hsub E).
    + destruct (Py.truthy_list l); [|destruct (negb _); apply emits_ret].
      apply emits_bind; [|intros; apply emits_ret].
      apply emits_for_each. intros; apply emits_raise.
  - intros st. apply emits_bind; [|intros; apply emits_ret].
    unfold print_compgen. destruct (Py.truthy_list (snd st));
      [|apply emits_ret].
    destruct (negb _); apply emits_print, Hc.
Qed.

Lemma has_char_append (c : ascii) (a b : string) :
  has_char c (a +++ b) = has_char c a || has_char c b.
Proof.
  induction a as [|x a IH]; simpl; [reflexivity|].
  now rewrite IH, orb_assoc.
Qed.

Lemma replace_no_hyphen (s : string) :
  has_char "-" (Py.replace "-" "_" s) = false.
Proof.
  induction s as [|c s IH]; simpl; [reflexivity|]. rewrite IH.
  destruct (Ascii.eqb_spec c "-") as [->|Hne]; [reflexivity|].
  rewrite orb_false_r. now apply Ascii.eqb_neq.
Qed.

Lemma child_prefix_no_hyphen (prefix cmd : string) :
  has_char "-" prefix = false ->
  has_char "-" (child_prefix prefix cmd) = false.
Proof.
  intros H. unfold child_prefix.
  now rewrite !has_char_append, H, replace_no_hyphen.
Qed.

Lemma under_startswith (prefix x : string) :
  under prefix x -> Py.startswith prefix x = true.
Proof.
  intros [->|[rest ->]]; apply startswith_spec.
  - exists EmptyString. now rewrite append_nil_r.
  - now exists ("_" +++ rest).
Qed.

Lemma lines_of_below (prefix : string) (L : list (string * ArgumentParser)) :
  Forall (line_below prefix) (lines_of print_bash_commands prefix L).
Proof.
  unfold lines_of. apply Forall_forall. intros l Hl.
  apply in_flat_map in Hl. destruct Hl as [[cmd child] [_ Hl]].
  cbn [fst snd] in Hl.
  pose proof (emits_written _ _
                (print_bash_commands_emits child (child_prefix prefix cmd)))
    as H.
  apply (proj1 (Forall_forall _ _) H) in Hl. destruct Hl as [Hu _].
  now apply (below_child prefix cmd).
Qed.

Lemma compgen_at_below (prefix : string) (l : line) :
  line_below prefix l -> compgen_at prefix l = false.
Proof.
  intros H. destruct l as [q o|q fn]; [reflexivity|]. simpl.
  apply String.eqb_neq. now apply below_neq.
Qed.

Lemma filter_none {A} (f : A -> bool) (l : list A) :
  Forall (fun x => f x = false) l -> filter f l = [].
Proof.
  induction 1 as [|x l Hx _ IH]; simpl; [reflexivity|]. now rewrite Hx.
Qed.

End Invariants.

(** X4. Every line that the traversal prints names a variable that
    starts with the prefix of the traversal, and has no hyphen in its
    name when the prefix has none: from [ROOT_PREFIX], every identifier
    starts with [_dvc] and is free of hyphens. *)
Theorem identifiers_namespaced (p : ArgumentParser) (prefix : string) :
  Forall (fun l => Py.startswith prefix (line_prefix l) = true)
         (written (print_bash_commands p prefix))
  /\ (has_char "-" prefix = false ->
      Forall (fun l => has_char "-" (line_prefix l) = false)
             (written (print_bash_commands p prefix)))
  /\ Forall (fun l => Py.startswith "_dvc" (line_prefix l) = true
                      /\ has_char "-" (line_prefix l) = false)
            (written (print_bash_commands p ROOT_PREFIX)).
Proof.
  assert (H1 : forall q,
             Forall (fun l => Py.startswith q (line_prefix l) = true)
                    (written (print_bash_commands p q))).
  { intros q.
    pose proof (emits_written _ _ (print_bash_commands_emits p q)) as H.
    revert H. apply Forall_impl. intros l [Hu _].
    now apply under_startswith. }
  assert (H2 : forall q, has_char "-" q = false ->
             Forall (fun l => has_char "-" (line_prefix l) = false)
                    (written (print_bash_commands p q))).
  { intros q Hq.
    pose proof (emits_written _ _
                  (traversal_invariant
                     (fun q l => has_char "-" q = false ->
                                 has_char "-" (line_prefix l) = false)
                     (fun _ _ H => H) (fun _ _ H => H)
                     (fun q cmd l H Hq =>
                        H (child_prefix_no_hyphen q cmd Hq))
                     p q)) as H.
    revert H. apply Forall_impl. intros l Hl. now apply Hl. }
  split; [apply H1|]. split; [apply H2|].
  apply Forall_forall. intros l Hl. split.
  - exact (proj1 (Forall_forall _ _) (H1 ROOT_PREFIX) l Hl).
  - exact (proj1 (Forall_forall _ _) (H2 ROOT_PREFIX eq_refl) l Hl).
Qed.

Lemma identifiers_namespaced_witness :
  has_char "-" "_dvc_x" = false
  /\ Forall (fun l => has_char "-" (line_prefix l) = false)
            (written (print_bash_commands hyphen_collision "_dvc_x")).
Proof.
  split; [reflexivity|].
  exact (proj1 (proj2 (identifiers_namespaced hyphen_collision "_dvc_x"))
           eq_refl).
Defined.

(** X5. The traversal of a node prints at most one strategy line for the
    node, and when it prints one it is the last line printed; the lines
    before it are the node's options line and lines of its
    descendants. *)
Theorem one_strategy_line (p : ArgumentParser) (prefix : string) :
  List.length (filter (compgen_at prefix)
                 (written (print_bash_commands p prefix))) <= 1
  /\ forall fn,
       In (CompgenLine prefix fn) (written (print_bash_commands p prefix)) ->
       exists L1,
         written (print_bash_commands p prefix) =
         (options_lines prefix p ++ lines_of print_bash_commands prefix L1)
         ++ [CompgenLine prefix fn].
Proof.
  destruct (traversal_shape p prefix) as [L1 [L2 [tail [_ [Ew Ht]]]]].
  assert (Eo : filter (compgen_at prefix) (options_lines prefix p) = []).
  { unfold options_lines. now destruct (String.eqb prefix ROOT_PREFIX). }
  assert (Ek : filter (compgen_at prefix)
                 (lines_of print_bash_commands prefix L1) = []).
  { apply filter_none. generalize (lines_of_below prefix L1).
    apply Forall_impl. apply compgen_at_below. }
  rewrite Ew. split.
  - rewrite !filter_app, Eo, Ek. cbn [app].
    destruct Ht as [->|[_ ->]]; [simpl; lia|].
    destruct (classify _); simpl; rewrite ?String.eqb_refl; simpl; lia.
  - intros fn Hin. exists L1. rewrite app_assoc. f_equal.
    assert (Hf : In (CompgenLine prefix fn)
                   (filter (compgen_at prefix)
                      (options_lines prefix p
                       ++ lines_of print_bash_commands prefix L1 ++ tail))).
    { apply filter_In. split; [exact Hin|]. simpl. apply String.eqb_refl. }
    rewrite !filter_app, Eo, Ek in Hf. cbn [app] in Hf.
    apply filter_In in Hf. destruct Hf as [Hf _].
    destruct Ht as [->|[_ ->]]; [destruct Hf|].
    destruct (classify _); simpl in *; try contradiction;
      destruct Hf as [Hf|[]]; now rewrite Hf.
Qed.

Lemma one_strategy_line_witness :
  In (CompgenLine "_dvc_add" compgen_DVCFiles)
     (written (print_bash_commands add_parser "_dvc_add"))
  /\ exists L1,
       written (print_bash_commands add_parser "_dvc_add") =
       (options_lines "_dvc_add" add_parser
        ++ lines_of print_bash_commands "_dvc_add" L1)
       ++ [CompgenLine "_dvc_add" compgen_DVCFiles].
Proof.
  assert (H : In (CompgenLine "_dvc_add" compgen_DVCFiles)
                 (written (print_bash_commands add_parser "_dvc_add")))
    by (right; left; reflexivity).
  split; [exact H|].
  exact (proj2 (one_strategy_line add_parser "_dvc_add") compgen_DVCFiles H).
Defined.

Section Script.

Lemma concat_cons (x : string) (l : list string) :
  String.concat EmptyString (x :: l) = x +++ String.concat EmptyString l.
Proof. destruct l; simpl; [now rewrite append_nil_r | reflexivity]. Qed.

Lemma contains_refl (s : string) : Py.contains s s = true.
Proof.
  apply contains_spec. exists EmptyString, EmptyString.
  simpl. now rewrite append_nil_r.
Qed.

Lemma contains_append_l (n p h : string) :
  Py.contains n h = true -> Py.contains n (p +++ h) = true.
Proof.
  rewrite !contains_spec. intros [a [b ->]]. exists (p +++ a), b.
  now rewrite append_assoc.
Qed.

Lemma contains_append_r (n h s : string) :
  Py.contains n h = true -> Py.contains n (h +++ s) = true.
Proof.
  rewrite !contains_spec. intros [a [b ->]]. exists a, (b +++ s).
  now rewrite !append_assoc.
Qed.

Lemma getvalue_holds {W} (show : W -> string) (fd : StringIO W) (w : W) :
  In w fd -> Py.contains (show w +++ Py.nl) (getvalue show fd) = true.
Proof.
  unfold getvalue. induction fd as [|x fd IH]; intros Hin; [destruct Hin|].
  cbn [map]. rewrite concat_cons. destruct Hin as [->|Hin].
  - apply contains_append_r, contains_refl.
  - apply contains_append_l. now apply IH.
Qed.

Lemma script_holds_bash (commands : list string) (bash : string) :
  Py.contains bash (script commands bash) = true.
Proof.
  unfold script. do 5 apply contains_append_l.
  apply contains_append_r, contains_refl.
Qed.



End Script.

(** X6. [print_bash] and [complete] print all of the script or nothing:
    when the traversal raises, the sink is left as it was; otherwise one
    chunk is printed, after the traversal has ended, and [complete]
    returns it followed by a newline. *)
Theorem output_atomic (p : ArgumentParser) (fd : StringIO string) :
  (print_bash p fd = (fd, inl TypeError)
   /\ complete p "bash" = ([], inl TypeError))
  \/ (exists text,
         print_bash p fd = (fd ++ [text], inr tt)
         /\ complete p "bash" = ([text], inr (text +++ Py.nl))).
Proof.
  unfold complete, print_bash. cbn [String.eqb Ascii.eqb Bool.eqb].
  pose proof (print_bash_commands_raises p ROOT_PREFIX []) as Hr.
  destruct (print_bash_commands p ROOT_PREFIX []) as [bash [e|commands]].
  - left. rewrite <- (Hr e eq_refl). now split.
  - right. exists (script commands (getvalue render bash)).
    split; reflexivity.
Qed.

(** X7. The script starts with the line of the interpreter, holds the
    list of the commands between quotes after [_dvc_commands=], and
    holds all that the traversal printed: each of its lines is in the
    script, followed by a newline. *)
Theorem script_holds_lines (commands : list string) (lines : list line) :
  Py.startswith ("#!/usr/bin/env bash" +++ Py.nl)
    (script commands (getvalue render lines)) = true
  /\ Py.contains ("_dvc_commands='" +++ Py.join " " commands +++ "'")
       (script commands (getvalue render lines)) = true
  /\ Py.contains (getvalue render lines)
       (script commands (getvalue render lines)) = true
  /\ forall l,
       In l lines ->
       Py.contains (render l +++ Py.nl)
         (script commands (getvalue render lines)) = true.
Proof.
  split; [|split; [|split]].
  - apply startswith_spec. unfold script.
    exists (Py.join Py.nl (tl SCRIPT_HEAD) +++ Py.join " " commands
            +++ Py.join Py.nl SCRIPT_OPTIONS +++ Py.join " " GLOBAL_OPTIONS
            +++ Py.join Py.nl SCRIPT_SEP +++ getvalue render lines
            +++ Py.join Py.nl SCRIPT_TAIL).
    assert (E : Py.join Py.nl SCRIPT_HEAD =
                ("#!/usr/bin/env bash" +++ Py.nl)
                +++ Py.join Py.nl (tl SCRIPT_HEAD))
      by (vm_compute; reflexivity).
    rewrite E, !append_assoc. reflexivity.
  - apply contains_spec. unfold script.
    exists (Py.join Py.nl (removelast SCRIPT_HEAD) +++ Py.nl),
           (Py.nl +++ Py.join Py.nl (tl SCRIPT_OPTIONS)
            +++ Py.join " " GLOBAL_OPTIONS
            +++ Py.join Py.nl SCRIPT_SEP +++ getvalue render lines
            +++ Py.join Py.nl SCRIPT_TAIL).
    assert (E1 : Py.join Py.nl SCRIPT_HEAD =
                 (Py.join Py.nl (removelast SCRIPT_HEAD) +++ Py.nl)
                 +++ "_dvc_commands='") by (vm_compute; reflexivity).
    assert (E2 : Py.join Py.nl SCRIPT_OPTIONS =
                 "'" +++ Py.nl +++ Py.join Py.nl (tl SCRIPT_OPTIONS))
      by (vm_compute; reflexivity).
    rewrite E1, E2, !append_assoc. reflexivity.
  - apply script_holds_bash.
  - intros l Hl. unfold script. do 5 apply contains_append_l.
    apply contains_append_r. now apply getvalue_holds.
Qed.

Lemma script_holds_lines_witness :
  In (CompgenLine "_dvc_add" compgen_DVCFiles)
     [OptionsLine "_dvc_add" ["-f"; "--force"];
      CompgenLine "_dvc_add" compgen_DVCFiles]
  /\ Py.contains ("_dvc_add_COMPGEN=_dvc_compgen_DVCFiles" +++ Py.nl)
       (script ["add"]
          (getvalue render
             [OptionsLine "_dvc_add" ["-f"; "--force"];
              CompgenLine "_dvc_add" compgen_DVCFiles])) = true.
Proof.
  assert (H : In (CompgenLine "_dvc_add" compgen_DVCFiles)
                 [OptionsLine "_dvc_add" ["-f"; "--force"];
                  CompgenLine "_dvc_add" compgen_DVCFiles])
    by (right; left; reflexivity).
  split; [exact H|].
  exact (proj2 (proj2 (proj2 (script_holds_lines ["add"]
                                [OptionsLine "_dvc_add" ["-f"; "--force"];
                                 CompgenLine "_dvc_add" compgen_DVCFiles])))
           _ H).
Defined.

Section Unused.

Lemma bind_ext {W A B} (m m' : M W A) (k k' : A -> M W B) :
  (forall fd, m fd = m' fd) -> (forall a fd, k a fd = k' a fd) ->
  forall fd, bind m k fd = bind m' k' fd.
Proof.
  intros Hm Hk fd. unfold bind. rewrite Hm.
  destruct (m' fd) as [fd' [e|a]]; [reflexivity | apply Hk].
Qed.

Lemma rename_dispatch_choices {P} (f : string -> string) (a : Action P) :
  choices (rename_dispatch f a) = choices a.
Proof. unfold rename_dispatch. now destruct (choices_truthy (choices a)). Qed.

Lemma rename_dispatch_visit {P} (g : P -> walker) (f : string -> string)
    (a : Action P) (prefix : string) :
  forall st fd,
    visit_positional prefix (Action_map g (rename_dispatch f a)) st fd =
    visit_positional prefix (Action_map g a) st fd.
Proof.
  intros [commands dests] fd. unfold rename_dispatch.
  destruct (choices_truthy (choices a)) eqn:Et; [|reflexivity].
  unfold visit_positional, visit_choices. cbn [Action_map choices dest].
  now rewrite choices_truthy_map, Et.
Qed.

Lemma rename_dispatch_opts {P} (f : string -> string)
    (positionals : list (Action P)) (optionals : list OptionalAction) :
  node_opts (map (rename_dispatch f) positionals) optionals =
  node_opts positionals optionals.
Proof.
  unfold node_opts. do 2 f_equal.
  induction positionals as [|a pos IH]; simpl; [reflexivity|].
  now rewrite IH, rename_dispatch_choices.
Qed.

Lemma forallb_members (f : string -> bool) (l l' : list string) :
  same_members l l' -> forallb f l = forallb f l'.
Proof.
  intros H. destruct (forallb f l) eqn:E, (forallb f l') eqn:E';
    try reflexivity.
  - apply forallb_false in E'. destruct E' as [x [Hx Hf]].
    rewrite forallb_forall in E. rewrite (E x (proj2 (H x) Hx)) in Hf.
    discriminate Hf.
  - apply forallb_false in E. destruct E as [x [Hx Hf]].
    rewrite forallb_forall in E'. rewrite (E' x (proj1 (H x) Hx)) in Hf.
    discriminate Hf.
Qed.

Lemma existsb_members (f : string -> bool) (l l' : list string) :
  same_members l l' -> existsb f l = existsb f l'.
Proof.
  intros H. destruct (existsb f l) eqn:E, (existsb f l') eqn:E';
    try reflexivity.
  - apply existsb_exists in E. destruct E as [x [Hx Hf]].
    assert (E2 : existsb f l' = true)
      by (apply existsb_exists; exists x; split;
          [apply (proj1 (H x) Hx) | exact Hf]).
    congruence.
  - apply existsb_exists in E'. destruct E' as [x [Hx Hf]].
    assert (E2 : existsb f l = true)
      by (apply existsb_exists; exists x; split;
          [apply (proj2 (H x) Hx) | exact Hf]).
    congruence.
Qed.

Lemma plain_marker_free (positionals : list (Action ArgumentParser))
    (optionals : list OptionalAction) :
  forallb plain positionals = true ->
  marker_free (Parser positionals optionals) = true
  /\ dispatch positionals = []
  /\ plain_names positionals = map dest positionals.
Proof.
  intros H. rewrite forallb_forall in H. split; [|split].
  - simpl. apply forallb_forall. intros a Ha. specialize (H a Ha).
    unfold plain in H. now destruct (choices a) as [|[|e d]|[|c l]].
  - unfold dispatch. induction positionals as [|a pos IH]; [reflexivity|].
    cbn [flat_map]. rewrite IH by (intros b Hb; apply H; now right).
    rewrite app_nil_r. specialize (H a (or_introl eq_refl)).
    unfold plain, dispatched in *.
    now destruct (choices a) as [|[|e d]|[|c l]].
  - unfold plain_names. f_equal.
    induction positionals as [|a pos IH]; [reflexivity|].
    cbn [filter]. rewrite (H a (or_introl eq_refl)).
    now rewrite IH by (intros b Hb; apply H; now right).
Qed.

End Unused.

(** X8. At the root the traversal never reads the optional actions of
    the parser: two roots with the same positionals give the same
    traversal and the same result of [complete], whatever their
    options. *)
Theorem root_options_unused (positionals : list (Action ArgumentParser))
    (optionals optionals' : list OptionalAction) :
  (forall fd,
      print_bash_commands (Parser positionals optionals) ROOT_PREFIX fd =
      print_bash_commands (Parser positionals optionals') ROOT_PREFIX fd)
  /\ forall shell,
       complete (Parser positionals optionals) shell =
       complete (Parser positionals optionals') shell.
Proof.
  assert (H : forall fd,
      print_bash_commands (Parser positionals optionals) ROOT_PREFIX fd =
      print_bash_commands (Parser positionals optionals') ROOT_PREFIX fd).
  { intros fd. cbn [print_bash_commands].
    unfold print_bash_commands_step, print_options.
    now rewrite String.eqb_refl. }
  split; [exact H|]. intros shell. unfold complete, print_bash.
  now rewrite H.
Qed.

(** X9. The traversal never reads the [dest] of a positional whose
    choices are true: giving other names to these positionals changes
    nothing of what a node prints and returns. *)
Theorem dispatch_dest_unused (f : string -> string)
    (positionals : list (Action ArgumentParser))
    (optionals : list OptionalAction) (prefix : string)
    (fd : StringIO line) :
  print_bash_commands (Parser (map (rename_dispatch f) positionals) optionals)
    prefix fd =
  print_bash_commands (Parser positionals optionals) prefix fd.
Proof.
  cbn [print_bash_commands]. unfold print_bash_commands_step.
  apply bind_ext.
  - intros fd'. unfold print_options.
    now rewrite !node_opts_map, rename_dispatch_opts.
  - intros _ fd'. apply bind_ext; [|reflexivity].
    intros fd''. apply for_each_Forall2.
    clear. induction positionals as [|a pos IH]; simpl; constructor;
      [|exact IH].
    apply rename_dispatch_visit.
Qed.

(** X10. A node none of whose positionals has choices that are true, as
    with no choices, an empty dict or an empty list of markers, is a
    leaf of the traversal: it returns no command and prints its options
    line, unless it is the root, and the strategy line of the names of
    all its positionals. *)
Theorem no_subcommands (p : ArgumentParser) (prefix : string)
    (fd : StringIO line) :
  forallb plain (_get_positional_actions p) = true ->
  print_bash_commands p prefix fd =
  (fd ++ options_lines prefix p
      ++ strategy_lines prefix
           (classify (map dest (_get_positional_actions p))),
   inr []).
Proof.
  destruct p as [pos opt]. cbn [_get_positional_actions]. intros H.
  destruct (plain_marker_free pos opt H) as [Hm [Hd Hn]].
  rewrite (print_bash_commands_run _ Hm prefix fd).
  unfold children_lines. cbn [_get_positional_actions].
  now rewrite Hd, Hn.
Qed.

Lemma no_subcommands_witness :
  forallb plain
    (_get_positional_actions
       (Parser [mkAction "cmd" (Subparsers []);
                mkAction "path" (Markers [])] [])) = true
  /\ print_bash_commands
       (Parser [mkAction "cmd" (Subparsers []);
                mkAction "path" (Markers [])] [])
       ROOT_PREFIX [] =
     ([CompgenLine "_dvc" compgen_files], inr []).
Proof.
  split; [reflexivity|].
  exact (no_subcommands
           (Parser [mkAction "cmd" (Subparsers []);
                    mkAction "path" (Markers [])] [])
           ROOT_PREFIX [] eq_refl).
Defined.



(** X12. The denylist is closed under extension: a name that holds a
    name of the denylist, or any name that matches it, matches it, so a
    name is kept for completion only if none of its parts matches. *)
Theorem denylist_closed (n a b : string) :
  uncompletable n = true -> uncompletable (a +++ n +++ b) = true.
Proof.
  rewrite !uncompletable_spec. intros [i [x [y [Hi ->]]]].
  exists i, (a +++ x), (y +++ b). split; [exact Hi|].
  now rewrite !append_assoc.
Qed.

Lemma denylist_closed_witness :
  uncompletable "name" = true /\ uncompletable "filename_list" = true.
Proof.
  split; [reflexivity|].
  exact (denylist_closed "name" "file" "_list" eq_refl).
Defined.

(** X13. The strategy line of a node depends on the set of the names of
    its plain positionals only, not on their order nor on their
    repetitions. *)
Theorem strategy_of_name_set (prefix : string) (names names' : list string) :
  same_members names names' ->
  classify names = classify names'
  /\ written (print_compgen prefix
                (filter (fun d => negb (uncompletable d)) names)) =
     written (print_compgen prefix
                (filter (fun d => negb (uncompletable d)) names')).
Proof.
  intros H.
  assert (E : classify names = classify names').
  { unfold classify.
    now rewrite (forallb_members _ _ _ H), (existsb_members _ _ _ H). }
  split; [exact E|]. now rewrite !print_compgen_classify, E.
Qed.

Lemma strategy_of_name_set_witness :
  same_members ["path"; "targets"; "path"] ["targets"; "path"]
  /\ classify ["path"; "targets"; "path"] = classify ["targets"; "path"].
Proof.
  assert (H : same_members ["path"; "targets"; "path"] ["targets"; "path"]).
  { intros n. simpl. tauto. }
  split; [exact H|].
  exact (proj1 (strategy_of_name_set "_dvc_x" _ _ H)).
Defined.

Section Nodes.

Lemma dispatched_entries {P} (d l : list (string * P)) :
  (forall e, In e l -> Py.dict_get d (fst e) = Some (snd e)) ->
  flat_map (fun cmd =>
              match Py.dict_get d cmd with
              | Some child => [(cmd, child)]
              | None => []
              end) (map fst l) = l.
Proof.
  induction l as [|[k v] l IH]; intros H; simpl; [reflexivity|].
  pose proof (H (k, v) (or_introl eq_refl)) as E. simpl in E.
  rewrite E. simpl. f_equal.
  apply IH. intros e He. apply H. now right.
Qed.

Lemma traversal_from_nodes (p : ArgumentParser) : lines_from_nodes p.
Proof.
  induction p as [pos opt IH] using ArgumentParser_tree_ind.
  intros prefix l Hl.
  destruct (traversal_shape (Parser pos opt) prefix)
    as [L1 [L2 [tail [EL [Ew Ht]]]]].
  cbn [_get_positional_actions] in EL.
  rewrite Ew in Hl. apply in_app_or in Hl. destruct Hl as [Hl|Hl].
  - exists (Parser pos opt), prefix. split; [apply below_self|].
    unfold own_lines. apply in_or_app. now left.
  - apply in_app_or in Hl. destruct Hl as [Hl|Hl].
    + unfold lines_of in Hl. apply in_flat_map in Hl.
      destruct Hl as [[cmd child] [He Hl]]. cbn [fst snd] in Hl.
      assert (Hd : In (cmd, child) (dispatch pos))
        by (rewrite EL; apply in_or_app; now left).
      apply dispatch_children in IH.
      destruct (proj1 (Forall_forall _ _) IH (cmd, child) Hd _ _ Hl)
        as [q [qprefix [Hb Hq]]].
      exists q, qprefix. split; [|exact Hq].
      now apply (below_step (Parser pos opt) prefix cmd child).
    + destruct Ht as [->|[_ ->]]; [destruct Hl|].
      exists (Parser pos opt), prefix. split; [apply below_self|].
      unfold own_lines. apply in_or_app. now right.
Qed.

Lemma visited_below (root : ArgumentParser) (p q : ArgumentParser)
    (prefix qprefix : string) :
  below_node p prefix q qprefix ->
  forall depth, visited root depth p prefix ->
  exists depth', depth <= depth' /\ visited root depth' q qprefix.
Proof.
  induction 1 as [p prefix|p prefix cmd child q qprefix Hin _ IH];
    intros depth Hv.
  - exists depth. split; [lia | exact Hv].
  - destruct (IH (S depth) (visited_child root depth p prefix cmd child Hv Hin))
      as [d' [Hle Hv']].
    exists d'. split; [lia | exact Hv'].
Qed.



End Nodes.

(** X14. A dict with distinct keys is traversed entry by entry: each
    entry is reached once, with the value that the dict holds at its
    key, in the order of the keys. *)
Theorem each_entry_once {P} (sub : Action P) (d : list (string * P)) :
  choices sub = Subparsers d ->
  NoDup (Py.keys d) ->
  dispatched sub = Py.sorted entry_lt d
  /\ Permutation (dispatched sub) d
  /\ NoDup (dispatched sub).
Proof.
  intros Hc Hn.
  assert (E : dispatched sub = Py.sorted entry_lt d).
  { unfold dispatched. rewrite Hc.
    rewrite <- (keys_sorted d). apply dispatched_entries.
    intros [k v] He. apply NoDup_keys_in; [exact Hn|].
    apply (Permutation_in _ (sorted_perm entry_lt d)). exact He. }
  rewrite E. split; [reflexivity|]. split; [apply sorted_perm|].
  apply (Permutation_NoDup (l := d)); [symmetry; apply sorted_perm|].
  now apply (NoDup_map_inv fst).
Qed.

Lemma each_entry_once_witness :
  choices (mkAction "cmd" (Subparsers [("remove", leaf); ("add", leaf)]))
  = Subparsers [("remove", leaf); ("add", leaf)]
  /\ NoDup (Py.keys [("remove", leaf); ("add", leaf)])
  /\ dispatched (mkAction "cmd" (Subparsers [("remove", leaf); ("add", leaf)]))
     = [("add", leaf); ("remove", leaf)].
Proof.
  assert (H : NoDup (Py.keys [("remove", leaf); ("add", leaf)])).
  { constructor; [|constructor; [|constructor]].
    - intros [E|[]]. discriminate E.
    - intros []. }
  split; [reflexivity|]. split; [exact H|].
  exact (proj1 (each_entry_once
                  (mkAction "cmd" (Subparsers [("remove", leaf); ("add", leaf)]))
                  _ eq_refl H)).
Defined.

(** X15. Every line that the traversal of a tree prints from the root,
    whether it returns or raises, is a line that a visited node prints
    for itself, at the prefix of that node: its options line or its
    strategy line. *)
Theorem lines_belong_to_nodes (root : ArgumentParser) (l : line) :
  In l (written (print_bash_commands root ROOT_PREFIX)) ->
  exists depth q qprefix,
    visited root depth q qprefix
    /\ In l (own_lines qprefix q)
    /\ line_prefix l = qprefix.
Proof.
  intros Hl.
  destruct (traversal_from_nodes root ROOT_PREFIX l Hl)
    as [q [qprefix [Hb Hq]]].
  destruct (visited_below root root q ROOT_PREFIX qprefix Hb 0
              (visited_root root)) as [depth [_ Hv]].
  exists depth, q, qprefix. split; [exact Hv|]. split; [exact Hq|].
  unfold own_lines, options_lines in Hq. apply in_app_or in Hq.
  destruct Hq as [Hq|Hq].
  - destruct (String.eqb qprefix ROOT_PREFIX); [destruct Hq|].
    destruct Hq as [<-|[]]. reflexivity.
  - destruct (classify _); simpl in Hq; try contradiction;
      destruct Hq as [<-|[]]; reflexivity.
Qed.

Lemma lines_belong_to_nodes_witness :
  In (OptionsLine "_dvc_remote_add" [])
     (written (print_bash_commands scenario_B ROOT_PREFIX))
  /\ exists depth q qprefix,
       visited scenario_B depth q qprefix
       /\ In (OptionsLine "_dvc_remote_add" []) (own_lines qprefix q)
       /\ "_dvc_remote_add" = qprefix.
Proof.
  assert (H : In (OptionsLine "_dvc_remote_add" [])
                 (written (print_bash_commands scenario_B ROOT_PREFIX)))
    by (right; left; reflexivity).
  split; [exact H|].
  exact (lines_belong_to_nodes scenario_B _ H).
Defined.


